(** * Eterea: bookmark feed, search, link previews and the storage commands

    A shallow embedding of the frontend API layer ([lib/api.ts]), its
    reactive stores ([lib/stores/bookmarks.svelte.ts]), the settings page
    and the bookmark card's link extraction, together with a model of the
    native command surface the API layer talks to.

    Conventions.
    - A JavaScript [number] that holds a count, an offset or a limit is an
      integer of [Z].
    - A JavaScript string is a [string]: a sequence of code units below 256.
      The white-space and letter-case tables are those of JavaScript
      restricted to that range.  One string of the program leaves that
      range, the content of the first mock bookmark with its emoji: see
      [mockBookmarks] and [crab].
    - An [async] function is a computation of the monad [IO]: the store and
      the backend are threaded as explicit state, a rejected promise is the
      outcome [Rejected].  In [IO] a function runs to completion before the
      next one starts; a call that is waiting for its reply while another
      one is made is modelled apart, by the two halves of the call
      ([loadBookmarks_begin], [loadBookmarks_end]).
    - The timer delays of the mock branches are left out.
    - An [option] stands for a value that may be [undefined] or [null]. *)

From stdpp Require Import base decidable option list strings gmap sorting numbers pretty.
From Stdlib Require Import Ascii ZArith Lia.

Local Open Scope string_scope.

(** ** Data model ([lib/types.ts])

    From [Bookmark] on, [id] is the bookmark's [id] field (and no longer the
    identity function): [id <$> l] is the list of the ids of [l]. *)

Inductive MediaType := Image | Video | Gif | Unknown.

Record Media := { url : string; media_type : MediaType }.

Record Bookmark := {
  id : string;
  tweet_url : string;
  content : string;
  note_text : option string;
  tweeted_at : string;
  imported_at : string;
  author_handle : string;
  author_name : string;
  author_profile_url : option string;
  author_profile_image : option string;
  tags : list string;
  comments : option string;
  media : list Media;
  is_favorite : bool
}.

(** [PaginatedResponse<Bookmark>]; [total], [offset] and [limit] carry the
    prefix [resp_] since [FeedState] has fields of the same names. *)
Record PaginatedResponse := {
  items : list Bookmark;
  resp_total : Z;
  resp_offset : Z;
  resp_limit : Z;
  has_more : bool
}.

(** [LinkPreview]; its [url] field is [preview_url] here. *)
Record LinkPreview := {
  preview_url : string;
  final_url : string;
  title : option string;
  description : option string;
  image_url : option string;
  site_name : option string
}.

#[global] Instance MediaType_eq_dec : EqDecision MediaType.
Proof. solve_decision. Defined.
#[global] Instance Media_eq_dec : EqDecision Media.
Proof. solve_decision. Defined.
#[global] Instance Bookmark_eq_dec : EqDecision Bookmark.
Proof. solve_decision. Defined.

(** [{ ...b, is_favorite: v }] *)
Definition with_favorite (v : bool) (b : Bookmark) : Bookmark :=
  {| id := id b; tweet_url := tweet_url b; content := content b;
     note_text := note_text b; tweeted_at := tweeted_at b;
     imported_at := imported_at b; author_handle := author_handle b;
     author_name := author_name b; author_profile_url := author_profile_url b;
     author_profile_image := author_profile_image b; tags := tags b;
     comments := comments b; media := media b; is_favorite := v |}.

(** The list with the favorite flag of the bookmark [i] set to [v]. *)
Definition mark_favorite (i : string) (v : bool) (l : list Bookmark) : list Bookmark :=
  (λ b, if decide (id b = i) then with_favorite v b else b) <$> l.

(** ** Promises and the command interface *)

(** The error values a command can be rejected with (spec, error taxonomy);
    [IpcError] is any failure of the transport itself. *)
Inductive Error :=
  | NotFound | StorageBusy | StorageIOError | UnrecognizedFormat | IpcError.

(** How a promise settles. *)
Inductive Outcome (A : Type) :=
  | Resolved (a : A)
  | Rejected (e : Error).
Arguments Resolved {A} a.
Arguments Rejected {A} e.

(** The argument object of [invoke('search_with_filters', ...)]. *)
Record FilterArgs := {
  arg_query : option string;
  arg_tag : option string;
  arg_author : option string;
  arg_fromDate : option string;
  arg_toDate : option string;
  arg_favoritesOnly : bool;
  arg_hasMedia : option bool;
  arg_limit : Z
}.

(** The commands [lib/api.ts] invokes, with their arguments. *)
Inductive Command :=
  | get_bookmarks (offset limit : Z)
  | search_bookmarks (query tag : option string) (limit : Z)
  | search_with_filters (args : FilterArgs)
  | get_favorites (limit : Z)
  | toggle_favorite (id : string)
  | delete_bookmark (id : string)
  | fetch_link_preview (url : string).

#[global] Instance FilterArgs_eq_dec : EqDecision FilterArgs.
Proof. solve_decision. Defined.
#[global] Instance Command_eq_dec : EqDecision Command.
Proof. solve_decision. Defined.

(** The type parameter of each [invoke<T>]. *)
Definition Reply (c : Command) : Type :=
  match c with
  | get_bookmarks _ _ => PaginatedResponse
  | search_bookmarks _ _ _ => list Bookmark
  | search_with_filters _ => list Bookmark
  | get_favorites _ => list Bookmark
  | toggle_favorite _ => bool
  | delete_bookmark _ => unit
  | fetch_link_preview _ => option LinkPreview
  end.

(** A backend answers a command from its state and moves to a new state. *)
Class Backend (B : Type) := handle : ∀ c : Command, B → Outcome (Reply c) * B.

(** The [limit] argument of a command, where it has one. *)
Definition command_limit (c : Command) : option Z :=
  match c with
  | get_bookmarks _ limit => Some limit
  | search_bookmarks _ _ limit => Some limit
  | search_with_filters args => Some (arg_limit args)
  | get_favorites limit => Some limit
  | _ => None
  end.

Definition is_preview_command (c : Command) : bool :=
  match c with fetch_link_preview _ => true | _ => false end.

(** ** Stores ([lib/stores/bookmarks.svelte.ts]) *)

Record FeedState := { offset : Z; limit : Z; total : Z; hasMore : bool }.

(** [Partial<FeedState>] *)
Record PartialFeedState := {
  p_offset : option Z; p_limit : option Z; p_total : option Z; p_hasMore : option bool
}.

(** A promise of the preview cache: [pid] tells promise objects apart, by
    order of creation, and [settled] is how it settles. *)
Record Promise (A : Type) := { pid : nat; settled : Outcome A }.
Arguments pid {A} _.
Arguments settled {A} _.

(** The module-level state of the frontend and the backend it talks to.
    [requests] is the trace of the commands invoked so far, oldest first. *)
Record World (B : Type) := {
  bookmarks : list Bookmark;
  feedMeta : FeedState;
  isLoading : bool;
  previewCache : gmap string (Promise (option LinkPreview));
  requests : list Command;
  backend : B
}.
Arguments bookmarks {B} _.
Arguments feedMeta {B} _.
Arguments isLoading {B} _.
Arguments previewCache {B} _.
Arguments requests {B} _.
Arguments backend {B} _.

(** The state at module load: [createFeedMetaStore], [createBookmarksStore],
    [createLoadingStore] and [new Map()]. *)
Definition initial_feed : FeedState :=
  {| offset := 0; limit := 50; total := 0; hasMore := true |}.

Definition initial_world {B} (b : B) : World B :=
  {| bookmarks := []; feedMeta := initial_feed; isLoading := false;
     previewCache := ∅; requests := []; backend := b |}.

(** ** The monad of the API functions *)

Definition IO (B A : Type) : Type := World B → Outcome A * World B.

Definition ret {B A} (a : A) : IO B A := λ w, (Resolved a, w).

Definition bind {B A C} (m : IO B A) (k : A → IO B C) : IO B C :=
  λ w, match m w with
       | (Resolved a, w') => k a w'
       | (Rejected e, w') => (Rejected e, w')
       end.

Declare Scope io_scope.
Delimit Scope io_scope with io.
Notation "'let*' x ':=' m 'in' k" := (bind m (λ x, k))
  (at level 10, x name, m at level 100, k at level 200) : io_scope.
Notation "m ';;' k" := (bind m (λ _, k))
  (at level 100, k at level 200, right associativity) : io_scope.
Local Open Scope io_scope.

(** [try { m } catch (error) { h error }] *)
Definition try_catch {B A} (m : IO B A) (h : Error → IO B A) : IO B A :=
  λ w, match m w with
       | (Resolved a, w') => (Resolved a, w')
       | (Rejected e, w') => h e w'
       end.

(** [try { m } finally { f }], for a [finally] block that does not throw. *)
Definition finally {B A} (m : IO B A) (f : World B → World B) : IO B A :=
  λ w, let '(o, w') := m w in (o, f w').

Definition get_world {B} : IO B (World B) := λ w, (Resolved w, w).

Definition modify {B} (f : World B → World B) : IO B unit := λ w, (Resolved tt, f w).

Definition when {B} (c : bool) (m : IO B unit) : IO B unit := if c then m else ret tt.

(** [a ?? b] *)
Definition nullish {A} (a : option A) (b : A) : A := default b a.

(** [s || undefined] for a string, and for a string that may be null. *)
Definition truthy (s : string) : option string := if decide (s = "") then None else Some s.
Definition truthy_opt (s : option string) : option string := s ≫= truthy.

(** ** Store operations *)

Section Stores.
Context {B : Type}.

Definition set_bookmarks (l : list Bookmark) (w : World B) : World B :=
  {| bookmarks := l; feedMeta := feedMeta w; isLoading := isLoading w;
     previewCache := previewCache w; requests := requests w; backend := backend w |}.

Definition set_feedMeta (f : FeedState) (w : World B) : World B :=
  {| bookmarks := bookmarks w; feedMeta := f; isLoading := isLoading w;
     previewCache := previewCache w; requests := requests w; backend := backend w |}.

Definition set_isLoading (v : bool) (w : World B) : World B :=
  {| bookmarks := bookmarks w; feedMeta := feedMeta w; isLoading := v;
     previewCache := previewCache w; requests := requests w; backend := backend w |}.

Definition set_previewCache (c : gmap string (Promise (option LinkPreview)))
    (w : World B) : World B :=
  {| bookmarks := bookmarks w; feedMeta := feedMeta w; isLoading := isLoading w;
     previewCache := c; requests := requests w; backend := backend w |}.

(** [createBookmarksStore] *)
Definition bookmarks_set (newItems : list Bookmark) : World B → World B :=
  set_bookmarks newItems.
Definition bookmarks_append (newItems : list Bookmark) (w : World B) : World B :=
  set_bookmarks (bookmarks w ++ newItems) w.
Definition bookmarks_remove (i : string) (w : World B) : World B :=
  set_bookmarks (filter (λ b, id b ≠ i) (bookmarks w)) w.
Definition bookmarks_clear : World B → World B := set_bookmarks [].

(** [createLoadingStore] *)
Definition isLoading_set (newLoading : bool) : World B → World B :=
  set_isLoading newLoading.

(** [createFeedMetaStore]: [reset(limit = 50)] and [update(partial)]. *)
Definition feedMeta_reset (l : Z) : World B → World B :=
  set_feedMeta {| offset := 0; limit := l; total := 0; hasMore := true |}.

Definition merge_feed (s : FeedState) (p : PartialFeedState) : FeedState :=
  {| offset := nullish (p_offset p) (offset s);
     limit := nullish (p_limit p) (limit s);
     total := nullish (p_total p) (total s);
     hasMore := nullish (p_hasMore p) (hasMore s) |}.

Definition feedMeta_update (p : PartialFeedState) (w : World B) : World B :=
  set_feedMeta (merge_feed (feedMeta w) p) w.
End Stores.

(** ** Strings: [toLowerCase] and [includes] *)

Definition lower_ascii (c : ascii) : ascii :=
  let n := nat_of_ascii c in
  if ((65 <=? n) && (n <=? 90))%nat then ascii_of_nat (n + 32)
  else if ((192 <=? n) && (n <=? 222) && negb (n =? 215))%nat then ascii_of_nat (n + 32)
  else c.

Fixpoint toLowerCase (s : string) : string :=
  match s with
  | "" => ""
  | String c s' => String (lower_ascii c) (toLowerCase s')
  end.

(** [s.includes(sub)] *)
Fixpoint includes (sub s : string) : bool :=
  String.prefix sub s ||
  match s with
  | "" => false
  | String _ s' => includes sub s'
  end.

(** ** Mock data of [lib/api.ts]

    The content of the first mock bookmark holds the crab emoji U+1F980.  In
    JavaScript it is the two code units D83E and DD80, which an 8-bit
    [string] cannot hold: here it is [crab], the four bytes of its UTF-8
    form as they stand in the source file, so that the content is two units
    longer than in JavaScript.  The four bytes are outside ASCII, none of
    them is a white-space character and [toLowerCase] keeps them, as it
    keeps the emoji.  What the program does with the content is to look for
    a query in it and to show it: for a query of ASCII characters
    ([is_ascii]) both representations give the same answer, and the
    properties of the mock search are stated for such queries only. *)

Definition crab : string := "🦀".

(** Whether every code unit of [s] is below 128. *)
Fixpoint is_ascii (s : string) : bool :=
  match s with
  | "" => true
  | String c s' => (nat_of_ascii c <? 128)%nat && is_ascii s'
  end.

Definition mockBookmarks : list Bookmark := [
  {| id := "1";
     tweet_url := "https://twitter.com/rustlang/status/123";
     content := "Rust 2024 edition is here! 🦀 Check out the new features including improved async support and better error messages.";
     note_text := None;
     tweeted_at := "2024-05-01T14:30:00Z";
     imported_at := "2024-05-02T10:00:00Z";
     author_handle := "rustlang";
     author_name := "Rust Language";
     author_profile_url := Some "https://twitter.com/rustlang";
     author_profile_image := Some "https://pbs.twimg.com/profile_images/1234/rust_normal.jpg";
     tags := ["technology"; "programming"];
     comments := None;
     media := [];
     is_favorite := true |};
  {| id := "2";
     tweet_url := "https://twitter.com/svaborern/status/456";
     content := "Svelte 5 runes are a game changer. The new reactivity system is so much simpler to understand.";
     note_text := None;
     tweeted_at := "2024-04-28T09:15:00Z";
     imported_at := "2024-05-02T10:00:00Z";
     author_handle := "svaborern";
     author_name := "Svelte Enthusiast";
     author_profile_url := None;
     author_profile_image := None;
     tags := ["technology"; "webdev"];
     comments := None;
     media := [];
     is_favorite := false |}
].

(** ** The API layer ([lib/api.ts]) *)

Record LoadOptions := {
  opt_offset : option Z;
  opt_limit : option Z;
  opt_reset : bool
}.

(** The argument of [searchWithFilters]. *)
Record Filters := {
  f_query : option string;
  f_tag : option string;
  f_author : option string;
  f_fromDate : option string;
  f_toDate : option string;
  f_favoritesOnly : option bool;
  f_hasMedia : option bool
}.

Section Api.
Context {B : Type} {BE : Backend B}.
(** [typeof window !== 'undefined' && '__TAURI__' in window] *)
Variable isTauri : bool.

(** [await invoke<T>(cmd, args)]: the command is recorded in the trace and
    answered by the backend. *)
Definition invoke (c : Command) : IO B (Reply c) :=
  λ w, let '(o, b') := handle c (backend w) in
       (o, {| bookmarks := bookmarks w; feedMeta := feedMeta w;
              isLoading := isLoading w; previewCache := previewCache w;
              requests := requests w ++ [c]; backend := b' |}).

(** After a search-style call the feed holds exactly the response. *)
Definition show_results (response : list Bookmark) : IO B unit :=
  modify (bookmarks_set response);;
  modify (feedMeta_reset 100);;
  modify (feedMeta_update
    {| p_offset := Some (Z.of_nat (length response)); p_limit := None;
       p_total := Some (Z.of_nat (length response)); p_hasMore := Some false |}).

Definition loadBookmarks (options : LoadOptions) : IO B unit :=
  let* w0 := get_world in
  let limit := nullish (opt_limit options) (nullish (Some (limit (feedMeta w0))) 50%Z) in
  let offset :=
    if opt_reset options then 0%Z
    else nullish (opt_offset options) (nullish (Some (offset (feedMeta w0))) 0%Z) in
  when (opt_reset options)
    (modify bookmarks_clear;; modify (feedMeta_reset limit));;
  when (offset =? 0)%Z (modify (isLoading_set true));;
  finally
    (try_catch
      (if isTauri then
         let* response := invoke (get_bookmarks offset limit) in
         (if (offset =? 0)%Z then modify (bookmarks_set (items response))
          else modify (bookmarks_append (items response)));;
         modify (feedMeta_update
           {| p_offset := Some (offset + Z.of_nat (length (items response)))%Z;
              p_limit := Some limit;
              p_total := Some (resp_total response);
              p_hasMore := Some (has_more response) |})
       else
         (if (offset =? 0)%Z then modify (bookmarks_set mockBookmarks)
          else modify (bookmarks_append mockBookmarks));;
         modify (feedMeta_update
           {| p_offset := Some (offset + Z.of_nat (length mockBookmarks))%Z;
              p_limit := Some limit;
              p_total := Some (Z.of_nat (length mockBookmarks));
              p_hasMore := Some false |}))
      (λ error, when (offset =? 0)%Z (modify (bookmarks_set []))))
    (λ w, if (offset =? 0)%Z then isLoading_set false w else w).

Definition loadMoreBookmarks : IO B unit :=
  let* w := get_world in
  if negb (hasMore (feedMeta w)) || isLoading w then ret tt
  else loadBookmarks
    {| opt_offset := Some (offset (feedMeta w));
       opt_limit := Some (limit (feedMeta w));
       opt_reset := false |}.

Definition searchBookmarks (query : string) (tag : option string) : IO B unit :=
  modify (isLoading_set true);;
  finally
    (try_catch
      (if isTauri then
         let* response :=
           invoke (search_bookmarks (truthy query) (truthy_opt tag) 100) in
         show_results response
       else
         let filtered := mockBookmarks in
         let filtered :=
           match truthy query with
           | Some query =>
               let q := toLowerCase query in
               filter (λ b, includes q (toLowerCase (content b))
                            || includes q (toLowerCase (author_handle b))
                            || includes q (toLowerCase (author_name b))) filtered
           | None => filtered
           end in
         let filtered :=
           match truthy_opt tag with
           | Some tag => filter (λ b, tag ∈ tags b) filtered
           | None => filtered
           end in
         show_results filtered)
      (λ error, ret tt))
    (isLoading_set false).

Definition deleteBookmark (i : string) : IO B unit :=
  if isTauri then
    invoke (delete_bookmark i);;
    modify (bookmarks_remove i)
  else modify (bookmarks_remove i).

(** [items.findIndex(b => b.id === id)], then the assignment to
    [items[idx].is_favorite] and [bookmarks.set([...items])].  The
    assignment goes to the object at [idx]; list entries are values here,
    which is exact as long as no object occurs twice in [items]. *)
Definition findIndex (i : string) (l : list Bookmark) : option (nat * Bookmark) :=
  list_find (λ b, id b = i) l.

Definition toggleFavorite (i : string) : IO B bool :=
  if isTauri then
    let* newStatus := invoke (toggle_favorite i) in
    let* w := get_world in
    match findIndex i (bookmarks w) with
    | Some (idx, _) =>
        modify (bookmarks_set (alter (with_favorite newStatus) idx (bookmarks w)))
    | None => ret tt
    end;;
    ret newStatus
  else
    let* w := get_world in
    match findIndex i (bookmarks w) with
    | Some (idx, b) =>
        modify (bookmarks_set
          (alter (with_favorite (negb (is_favorite b))) idx (bookmarks w)));;
        ret (negb (is_favorite b))
    | None => ret false
    end.

Definition loadFavorites : IO B unit :=
  modify (isLoading_set true);;
  finally
    (try_catch
      (if isTauri then
         let* response := invoke (get_favorites 100) in
         show_results response
       else
         let favorites := filter (λ b, is_favorite b = true) mockBookmarks in
         show_results favorites)
      (λ error, ret tt))
    (isLoading_set false).

Definition searchWithFilters (filters : Filters) : IO B unit :=
  modify (isLoading_set true);;
  finally
    (try_catch
      (if isTauri then
         let* response :=
           invoke (search_with_filters
             {| arg_query := truthy_opt (f_query filters);
                arg_tag := truthy_opt (f_tag filters);
                arg_author := truthy_opt (f_author filters);
                arg_fromDate := truthy_opt (f_fromDate filters);
                arg_toDate := truthy_opt (f_toDate filters);
                arg_favoritesOnly := nullish (f_favoritesOnly filters) false;
                arg_hasMedia := f_hasMedia filters;
                arg_limit := 100 |}) in
         show_results response
       else
         let filtered := mockBookmarks in
         let filtered :=
           match truthy_opt (f_query filters) with
           | Some query =>
               let q := toLowerCase query in
               filter (λ b, includes q (toLowerCase (content b))
                            || includes q (toLowerCase (author_handle b))) filtered
           | None => filtered
           end in
         let filtered :=
           if nullish (f_favoritesOnly filters) false
           then filter (λ b, is_favorite b = true) filtered
           else filtered in
         show_results filtered)
      (λ error, ret tt))
    (isLoading_set false).

(** The [async] arrow function inside [fetchLinkPreview]. *)
Definition preview_task (u : string) : IO B (option LinkPreview) :=
  try_catch
    (if isTauri then invoke (fetch_link_preview u) else ret None)
    (λ error, ret None).

(** [fetchLinkPreview] is not [async]: it returns the promise, which it has
    stored in [previewCache] before anything is awaited. *)
Definition fetchLinkPreview (u : string) (w : World B)
    : Promise (option LinkPreview) * World B :=
  match previewCache w !! u with
  | Some task => (task, w)
  | None =>
      let '(o, w') := preview_task u w in
      let task := {| pid := size (previewCache w); settled := o |} in
      (task, set_previewCache (<[u := task]> (previewCache w')) w')
  end.

(** [saveLimit] of the settings page; [limit] is the value bound to its
    number input, which is [null] while the field is empty.
    [feedMeta.reset(null)] stores the [null] as the limit (the default 50 of
    [reset] is for [undefined] only), and the next statement, the first of
    [loadBookmarks], reads it back through [?? 50] and resets the store
    with 50 before anything is awaited: the store holds 50 for it here. *)
Definition saveLimit (limit : option Z) : IO B unit :=
  modify (feedMeta_reset (nullish limit 50%Z));;
  loadBookmarks {| opt_offset := None; opt_limit := limit; opt_reset := true |}.
End Api.

(** ** Link targets of a bookmark card ([lib/components/BookmarkCard.svelte]) *)

(** [\s], for code units below 256: tab, line feed, vertical tab, form feed,
    carriage return, space and no-break space. *)
Definition is_white_space (c : ascii) : bool :=
  let n := nat_of_ascii c in
  ((9 <=? n) && (n <=? 13) || (n =? 32) || (n =? 160))%nat.

(** [p] read off the front of [s]. *)
Fixpoint strip_prefix (p s : string) : option string :=
  match p, s with
  | "", _ => Some s
  | String a p', String b s' => if decide (a = b) then strip_prefix p' s' else None
  | String _ _, "" => None
  end.

(** [[^\s]*], greedy: the longest run of non-white-space and what follows. *)
Fixpoint span_non_space (s : string) : string * string :=
  match s with
  | "" => ("", "")
  | String c s' =>
      if is_white_space c then ("", s)
      else let '(m, r) := span_non_space s' in (String c m, r)
  end.

(** [:\/\/[^\s]+] at the front of [s]: the match and the rest. *)
Definition match_tail (s : string) : option (string * string) :=
  match strip_prefix "://" s with
  | Some r =>
      match span_non_space r with
      | ("", _) => None
      | (m, rest) => Some ("://" ++ m, rest)
      end
  | None => None
  end.

(** One attempt of [urlRegex = /(https?:\/\/[^\s]+)/] at the front of [s]:
    [http], then [s?] tried first with the letter and then without it. *)
Definition match_url_at (s : string) : option (string * string) :=
  match strip_prefix "http" s with
  | Some r =>
      match strip_prefix "s" r ≫= match_tail with
      | Some (m, rest) => Some ("https" ++ m, rest)
      | None =>
          match match_tail r with
          | Some (m, rest) => Some ("http" ++ m, rest)
          | None => None
          end
      end
  | None => None
  end.

(** [content.match(urlRegex)] with the [g] flag: the matches from left to
    right, the search resuming where the last match ended, or one code unit
    further where there is none.  [fuel] bounds the number of attempts. *)
Fixpoint match_all_from (fuel : nat) (s : string) : list string :=
  match fuel with
  | O => []
  | S fuel' =>
      match match_url_at s with
      | Some (m, rest) => m :: match_all_from fuel' rest
      | None =>
          match s with
          | "" => []
          | String _ s' => match_all_from fuel' s'
          end
      end
  end.

(** [content.match(urlRegex) ?? []] *)
Definition match_all (s : string) : list string :=
  match_all_from (S (String.length s)) s.

Definition is_trailing_punct (c : ascii) : bool :=
  bool_decide (c = "," ∨ c = "." ∨ c = "!" ∨ c = "?")%char.

Fixpoint all_punct (s : string) : bool :=
  match s with
  | "" => true
  | String c s' => is_trailing_punct c && all_punct s'
  end.

(** [url.replace(/[,.!?]+$/, '')]: the leftmost position from which only
    punctuation follows up to the end is where the string is cut. *)
Fixpoint strip_trailing_punct (s : string) : string :=
  match s with
  | "" => ""
  | String c s' => if all_punct s then "" else String c (strip_trailing_punct s')
  end.

(** [Array.from(new Set(l))]: the first occurrence of each value, in order. *)
Definition array_from_set (l : list string) : list string :=
  foldl (λ acc x, if decide (x ∈ acc) then acc else (acc ++ [x])%list) [] l.

(** The function given to [$derived] for [linkTargets]. *)
Definition linkTargets (bookmark : Bookmark) : list string :=
  array_from_set
    (filter (λ u, u ≠ tweet_url bookmark)
      (strip_trailing_punct <$> match_all (content bookmark))).

(** A function object: the number of its declared parameters, which is what
    its [length] reads, and what a call of it returns. *)
Record Closure (A : Type) := { declared : nat; call : unit → A }.
Arguments declared {A} _.
Arguments call {A} _.

(** [$derived(e)] holds the value of [e]; [$derived.by(f)] is the rune that
    holds the value of [f()]. *)
Definition derived {A} (e : A) : A := e.

(** [const linkTargets = $derived(() => Array.from(...))] of the card: the
    expression given to [$derived] is an arrow function of no parameter, so
    that function is what [linkTargets] holds. *)
Definition linkTargets_derived (bookmark : Bookmark) : Closure (list string) :=
  derived {| declared := 0; call := λ _, linkTargets bookmark |}.

(** The [url] of each [LinkPreview] the card renders:
    [{#if linkTargets.length > 0} {#each linkTargets as target}
    <LinkPreview url={target} /> {/each} {/if}].  An [{#each}] over a value
    that is not an array goes over [Array.from] of it, which for a function
    object has [length] entries, all [undefined]. *)
Definition card_previews (bookmark : Bookmark) : list (option string) :=
  let linkTargets := linkTargets_derived bookmark in
  if (0 <? declared linkTargets)%nat then replicate (declared linkTargets) None
  else [].

(** What a match of [urlRegex] looks like: [http://] or [https://] and then
    a non-empty run without white space. *)
Fixpoint no_space (s : string) : bool :=
  match s with
  | "" => true
  | String c s' => negb (is_white_space c) && no_space s'
  end.

Definition url_shaped (m : string) : Prop :=
  ∃ r, (m = "http://" ++ r ∨ m = "https://" ++ r) ∧ r ≠ "" ∧ no_space r = true.

Fixpoint last_char (s : string) : option ascii :=
  match s with
  | "" => None
  | String c "" => Some c
  | String _ s' => last_char s'
  end.

(** A url stands as a word of its own in a text when the text before it is
    empty or ends in white space, and the text after it is empty or starts
    with white space. *)
Definition at_word_start (pre : string) : bool :=
  match last_char pre with
  | Some c => is_white_space c
  | None => true
  end.

Definition at_word_end (post : string) : bool :=
  match post with
  | "" => true
  | String c _ => is_white_space c
  end.

(** * The native core, modelled from the spec

    The Rust backend (ingestion, storage, query engine, command surface) is
    not part of the frontend sources.  Every definition of this part is
    written from the specification. *)

(** Modelled from the spec: the persistent state of the Storage Engine, the
    Bookmark rows and the counter ids are drawn from ("id never changes and
    is never reused after deletion"). *)
Record Storage := { rows : list Bookmark; next_id : N }.

(** Modelled from the spec: the reason codes of a per-row ingestion error. *)
Inductive ReasonCode := MissingField | UnparsableDate | MalformedMedia | EncodingError.

(** Modelled from the spec: "RowError carries: row index, a reason code and
    the raw offending fragment". *)
Record RowError := { row_index : nat; reason : ReasonCode; fragment : string }.

(** Modelled from the spec: what the spec leaves open about the core.
    [max_limit] is the "sane maximum" of the [limit] argument and
    [search_cap] the fixed maximum of a search result; [fts_match] and
    [fts_rank] are the full-text index (which rows a query matches, and how
    well); [parse] is the format parsers applied to the file at a path
    ([Rejected] when the format is not recognised or the file cannot be
    opened), each row a record or a row error; [fetch] is the network
    collaborator behind link previews. *)
Record Config := {
  max_limit : nat;
  search_cap : nat;
  fts_match : string → Bookmark → bool;
  fts_rank : string → Bookmark → nat;
  parse : string → Outcome (list (RowError + Bookmark));
  fetch : string → Outcome (option LinkPreview)
}.

(** Modelled from the spec: the order of [list], "by tweeted_at descending,
    ties broken by id ascending".  Timestamps are normalised to one UTC
    ISO-8601 format, whose chronological order is the order of strings. *)
Definition feed_order (a b : Bookmark) : Prop :=
  (tweeted_at a ≠ tweeted_at b ∧ String.le (tweeted_at b) (tweeted_at a))
  ∨ (tweeted_at a = tweeted_at b ∧ String.le (id a) (id b)).

(** Modelled from the spec: the order of [list] is decided by comparing
    strings. *)
#[global] Instance feed_order_dec : RelDecision feed_order.
Proof. intros a b. unfold feed_order. apply _. Defined.

(** Modelled from the spec: with a text query, "ranked by full-text
    relevance first, then by the same tiebreak as list". *)
Definition rank_order (rank : Bookmark → nat) (a b : Bookmark) : Prop :=
  (rank b < rank a)%nat ∨ (rank a = rank b ∧ feed_order a b).

(** Modelled from the spec: so is the order of a ranked result. *)
#[global] Instance rank_order_dec rank : RelDecision (rank_order rank).
Proof. intros a b. unfold rank_order. apply _. Defined.

(** Modelled from the spec: the filter specification of the Query Engine. *)
Record FilterSpec := {
  text : option string;
  tag : option string;
  author : option string;
  date_from : option string;
  date_to : option string;
  favorites_only : bool;
  has_media : option bool
}.

(** Modelled from the spec: a filter option that is absent admits every row. *)
Definition holds_if {A} (o : option A) (P : A → Prop) : Prop :=
  match o with Some a => P a | None => True end.

(** Modelled from the spec: a filter option is decided where its test is. *)
#[global] Instance holds_if_dec {A} (o : option A) (P : A → Prop)
  `{∀ a, Decision (P a)} : Decision (holds_if o P).
Proof. destruct o; simpl; apply _. Defined.

Section Core.
Variable cfg : Config.

(** Modelled from the spec: [list(offset, limit)], a page of the rows in
    feed order. *)
Definition list_page (offset limit : nat) (st : Storage) : list Bookmark :=
  take limit (drop offset (merge_sort feed_order (rows st))).

(** Modelled from the spec: the Command Surface bounds [limit] "to a sane
    maximum" before delegating. *)
Definition bounded_limit (limit : Z) : nat :=
  Z.to_nat limit `min` max_limit cfg.

(** Modelled from the spec: [get_bookmarks(offset, limit) ->
    {items, total, offset, limit, has_more}]. *)
Definition get_bookmarks_command (offset limit : Z) (st : Storage) : PaginatedResponse :=
  let o := Z.to_nat offset in
  let l := bounded_limit limit in
  let page := list_page o l st in
  {| items := page;
     resp_total := Z.of_nat (length (rows st));
     resp_offset := Z.of_nat o;
     resp_limit := Z.of_nat l;
     has_more := bool_decide (o + length page < length (rows st))%nat |}.

(** Modelled from the spec: the filters are applied "as a conjunction (AND
    semantics across all provided filters)": exact tag match, handle match,
    inclusive range on [tweeted_at], favorites only, media presence. *)
Definition passes (f : FilterSpec) (b : Bookmark) : Prop :=
  holds_if (text f) (λ q, fts_match cfg q b = true)
  ∧ holds_if (tag f) (λ t, t ∈ tags b)
  ∧ holds_if (author f) (λ a, author_handle b = a)
  ∧ holds_if (date_from f) (λ d, String.le d (tweeted_at b))
  ∧ holds_if (date_to f) (λ d, String.le (tweeted_at b) d)
  ∧ (favorites_only f = true → is_favorite b = true)
  ∧ holds_if (has_media f) (λ h, bool_decide (media b ≠ []) = h).

(** Modelled from the spec: whether a row passes the filters is decided
    filter by filter. *)
#[global] Instance passes_dec f b : Decision (passes f b).
Proof. unfold passes. apply _. Defined.

(** Modelled from the spec: the Query Engine composes the filters "into one
    ranked/ordered result set", capped "at a fixed maximum ... returned in
    one call". *)
Definition run_query (f : FilterSpec) (limit : Z) (st : Storage) : list Bookmark :=
  let hits := filter (passes f) (rows st) in
  let ordered :=
    match text f with
    | Some q => merge_sort (rank_order (fts_rank cfg q)) hits
    | None => merge_sort feed_order hits
    end in
  take (Z.to_nat limit `min` search_cap cfg) ordered.

(** Modelled from the spec: [search_bookmarks(query?, tag?, limit) ->
    items[]], a query with the text and tag filters only. *)
Definition search_bookmarks_command (query tag : option string) (limit : Z) :=
  run_query
    {| text := query; tag := tag; author := None; date_from := None;
       date_to := None; favorites_only := false; has_media := None |} limit.

(** Modelled from the spec: [get_favorites(limit) -> items[]], a query for
    the favorites only. *)
Definition get_favorites_command (limit : Z) :=
  run_query
    {| text := None; tag := None; author := None; date_from := None;
       date_to := None; favorites_only := true; has_media := None |} limit.

(** Modelled from the spec: the arguments of [search_with_filters(query?,
    tag?, author?, fromDate?, toDate?, favoritesOnly?, hasMedia?, limit)] as
    a filter specification. *)
Definition filter_spec_of (args : FilterArgs) : FilterSpec :=
  {| text := arg_query args; tag := arg_tag args; author := arg_author args;
     date_from := arg_fromDate args; date_to := arg_toDate args;
     favorites_only := arg_favoritesOnly args; has_media := arg_hasMedia args |}.

(** Modelled from the spec: [search_with_filters(...) -> items[]]. *)
Definition search_with_filters_command (args : FilterArgs) :=
  run_query (filter_spec_of args) (arg_limit args).

(** Modelled from the spec: [set_favorite(id, bool) -> new_state] of the
    Storage Engine. *)
Definition set_favorite (i : string) (v : bool) (st : Storage) : Storage :=
  {| rows := mark_favorite i v (rows st); next_id := next_id st |}.

(** Modelled from the spec: [get_by_id] of the Storage Engine. *)
Definition get_by_id (i : string) (st : Storage) : option Bookmark :=
  snd <$> list_find (λ b, id b = i) (rows st).

(** Modelled from the spec: [toggle_favorite(id) -> new_boolean_state],
    [NotFound] when the id does not exist. *)
Definition toggle_favorite_command (i : string) (st : Storage) : Outcome bool * Storage :=
  match get_by_id i st with
  | Some b => (Resolved (negb (is_favorite b)), set_favorite i (negb (is_favorite b)) st)
  | None => (Rejected NotFound, st)
  end.

(** Modelled from the spec: [delete_bookmark(id) -> void], a hard delete,
    [NotFound] if absent. *)
Definition delete_bookmark_command (i : string) (st : Storage) : Outcome unit * Storage :=
  match get_by_id i st with
  | Some _ =>
      (Resolved tt, {| rows := filter (λ b, id b ≠ i) (rows st); next_id := next_id st |})
  | None => (Rejected NotFound, st)
  end.

(** Modelled from the spec: [n] pages fetched one after the other, each
    from the offset the pages before it have reached. *)
Fixpoint fetch_pages (n : nat) (offset limit : Z) (st : Storage) : list (list Bookmark) :=
  match n with
  | O => []
  | S n' =>
      let page := items (get_bookmarks_command offset limit st) in
      page :: fetch_pages n' (offset + Z.of_nat (length page)) limit st
  end.

(** Modelled from the spec: the commands of the Command Surface as one
    backend.  Reads leave the storage as it is. *)
#[global] Instance core_backend : Backend Storage := λ c,
  match c return Storage → Outcome (Reply c) * Storage with
  | get_bookmarks offset limit => λ st, (Resolved (get_bookmarks_command offset limit st), st)
  | search_bookmarks query tag limit =>
      λ st, (Resolved (search_bookmarks_command query tag limit st), st)
  | search_with_filters args => λ st, (Resolved (search_with_filters_command args st), st)
  | get_favorites limit => λ st, (Resolved (get_favorites_command limit st), st)
  | toggle_favorite i => toggle_favorite_command i
  | delete_bookmark i => delete_bookmark_command i
  | fetch_link_preview u => λ st, (fetch cfg u, st)
  end.
End Core.

(** Modelled from the spec: what an import returns, "total rows seen, rows
    imported, rows skipped as duplicate, rows rejected with their errors". *)
Record ImportReport := {
  total_rows : nat;
  rows_imported : nat;
  rows_skipped_duplicate : nat;
  rows_rejected : list RowError
}.

(** Modelled from the spec: the records among the parsed rows of a file. *)
Definition valid_rows (parsed : list (RowError + Bookmark)) : list Bookmark :=
  omap (λ r, match r with inr b => Some b | inl _ => None end) parsed.

(** Modelled from the spec: the row errors among the parsed rows of a file. *)
Definition row_errors (parsed : list (RowError + Bookmark)) : list RowError :=
  omap (λ r, match r with inl e => Some e | inr _ => None end) parsed.

Section Ingestion.
Variable cfg : Config.

(** Modelled from the spec: a record becomes a row at first persistence,
    where it gets its [id] and its [imported_at]. *)
Definition persist (now : string) (n : N) (b : Bookmark) : Bookmark :=
  {| id := pretty n; tweet_url := tweet_url b; content := content b;
     note_text := note_text b; tweeted_at := tweeted_at b;
     imported_at := now; author_handle := author_handle b;
     author_name := author_name b; author_profile_url := author_profile_url b;
     author_profile_image := author_profile_image b; tags := tags b;
     comments := comments b; media := media b; is_favorite := is_favorite b |}.

(** Modelled from the spec: [insert_batch] for one record, the row going
    after the stored ones and the id counter moving on. *)
Definition insert_row (now : string) (b : Bookmark) (st : Storage) : Storage :=
  {| rows := rows st ++ [persist now (next_id st) b]; next_id := N.succ (next_id st) |}.

(** Modelled from the spec: [tweet_url] is the dedup key. *)
Definition stored_urls (st : Storage) : list string := tweet_url <$> rows st.

(** Modelled from the spec: for each parsed row, a row error is collected,
    a record whose [tweet_url] is in storage is skipped, any other record
    is committed.  A batch commits atomically; with no storage failure its
    boundaries are not observable, so rows are committed one after the
    other here. *)
Definition ingest_row (now : string) (acc : ImportReport * Storage)
    (r : RowError + Bookmark) : ImportReport * Storage :=
  let '(rep, st) := acc in
  match r with
  | inl e =>
      ({| total_rows := S (total_rows rep);
          rows_imported := rows_imported rep;
          rows_skipped_duplicate := rows_skipped_duplicate rep;
          rows_rejected := rows_rejected rep ++ [e] |}, st)
  | inr b =>
      if decide (tweet_url b ∈ stored_urls st) then
        ({| total_rows := S (total_rows rep);
            rows_imported := rows_imported rep;
            rows_skipped_duplicate := S (rows_skipped_duplicate rep);
            rows_rejected := rows_rejected rep |}, st)
      else
        ({| total_rows := S (total_rows rep);
            rows_imported := S (rows_imported rep);
            rows_skipped_duplicate := rows_skipped_duplicate rep;
            rows_rejected := rows_rejected rep |}, insert_row now b st)
  end.

(** Modelled from the spec: the report before any row is seen. *)
Definition empty_report : ImportReport :=
  {| total_rows := 0; rows_imported := 0; rows_skipped_duplicate := 0; rows_rejected := [] |}.

(** Modelled from the spec: the parsed rows streamed through the pipeline. *)
Definition ingest (now : string) (parsed : list (RowError + Bookmark)) (st : Storage)
    : ImportReport * Storage :=
  foldl (ingest_row now) (empty_report, st) parsed.

(** Modelled from the spec: the Ingestion Pipeline on the file at [path],
    at time [now].  A dry run "performs identical parsing/dedup logic but
    issues no writes"; a file of unrecognised format is fatal, "with no
    partial effect". *)
Definition import_file (dry_run : bool) (now path : string) (st : Storage)
    : Outcome ImportReport * Storage :=
  match parse cfg path with
  | Resolved parsed =>
      let '(rep, st') := ingest now parsed st in
      (Resolved rep, if dry_run then st else st')
  | Rejected _ => (Rejected UnrecognizedFormat, st)
  end.
End Ingestion.

(** Modelled from the spec: storage-level failures ([StorageBusy] once the
    retries are exhausted, [StorageIOError]) surface to the caller of a
    command.  The state carries, for each coming command, the failure that
    hits it, if any; a command that fails has no effect. *)
#[global] Instance faulty_backend {B} {BE : Backend B}
    : Backend (list (option Error) * B) := λ c s,
  match s with
  | (Some e :: faults, b) => (Rejected e, (faults, b))
  | (None :: faults, b) => let '(o, b') := handle c b in (o, (faults, b'))
  | ([], b) => let '(o, b') := handle c b in (o, ([], b'))
  end.

(** ** Sessions: sequences of calls to the API layer *)

Inductive Action :=
  | LoadBookmarks (options : LoadOptions)
  | LoadMoreBookmarks
  | SearchBookmarks (query : string) (tag : option string)
  | LoadFavorites
  | SearchWithFilters (filters : Filters)
  | ToggleFavorite (id : string)
  | DeleteBookmark (id : string)
  | FetchLinkPreview (url : string)
  | SaveLimit (limit : option Z).

(** The three search-style calls of the API layer. *)
Inductive SearchCall :=
  | BySearch (query : string) (tag : option string)
  | ByFavorites
  | ByFilters (filters : Filters).

Section Session.
Context {B : Type} {BE : Backend B}.
Variable isTauri : bool.

Definition step (w : World B) (a : Action) : World B :=
  match a with
  | LoadBookmarks options => (loadBookmarks isTauri options w).2
  | LoadMoreBookmarks => (loadMoreBookmarks isTauri w).2
  | SearchBookmarks query tag => (searchBookmarks isTauri query tag w).2
  | LoadFavorites => (loadFavorites isTauri w).2
  | SearchWithFilters filters => (searchWithFilters isTauri filters w).2
  | ToggleFavorite i => (toggleFavorite isTauri i w).2
  | DeleteBookmark i => (deleteBookmark isTauri i w).2
  | FetchLinkPreview u => (fetchLinkPreview isTauri u w).2
  | SaveLimit l => (saveLimit isTauri l w).2
  end.

Definition run (actions : list Action) (w : World B) : World B :=
  foldl step w actions.

Definition search_call (c : SearchCall) : IO B unit :=
  match c with
  | BySearch query tag => searchBookmarks isTauri query tag
  | ByFavorites => loadFavorites isTauri
  | ByFilters filters => searchWithFilters isTauri filters
  end.

(** The command a search-style call sends when [isTauri] holds. *)
Definition search_command (c : SearchCall) : Command :=
  match c with
  | BySearch query tag => search_bookmarks (truthy query) (truthy_opt tag) 100
  | ByFavorites => get_favorites 100
  | ByFilters filters =>
      search_with_filters
        {| arg_query := truthy_opt (f_query filters);
           arg_tag := truthy_opt (f_tag filters);
           arg_author := truthy_opt (f_author filters);
           arg_fromDate := truthy_opt (f_fromDate filters);
           arg_toDate := truthy_opt (f_toDate filters);
           arg_favoritesOnly := nullish (f_favoritesOnly filters) false;
           arg_hasMedia := f_hasMedia filters;
           arg_limit := 100 |}
  end.

(** The reply to the command of a search-style call is a list of bookmarks. *)
Definition reply_rows (c : SearchCall) : Reply (search_command c) → list Bookmark :=
  match c with
  | BySearch _ _ => λ r, r
  | ByFavorites => λ r, r
  | ByFilters _ => λ r, r
  end.

(** The feed after [show_results]. *)
Definition results_world (r : list Bookmark) (w : World B) : World B :=
  {| bookmarks := r;
     feedMeta := {| offset := Z.of_nat (length r); limit := 100;
                    total := Z.of_nat (length r); hasMore := false |};
     isLoading := false; previewCache := previewCache w;
     requests := requests w; backend := backend w |}.

(** The trace entries that are [fetch_link_preview] for the url [u]. *)
Definition preview_requests (u : string) (w : World B) : list Command :=
  filter (λ c, c = fetch_link_preview u) (requests w).
End Session.

(** ** Sample data for the examples *)

Definition sample_row (i url body stamp : string) (fav : bool) (ts : list string) : Bookmark :=
  {| id := i; tweet_url := url; content := body; note_text := None;
     tweeted_at := stamp; imported_at := "2024-05-02T10:00:00Z";
     author_handle := "rustlang"; author_name := "Rust Language";
     author_profile_url := None; author_profile_image := None;
     tags := ts; comments := None; media := []; is_favorite := fav |}.

Definition sample_rows : list Bookmark := [
  sample_row "0" "https://x.com/a/status/1" "borrow checker notes" "2024-04-28T09:15:00Z"
    false ["rust"];
  sample_row "1" "https://x.com/a/status/2" "async traits" "2024-05-01T14:30:00Z"
    true ["rust"; "async"];
  sample_row "2" "https://x.com/a/status/3" "runes" "2024-05-01T14:30:00Z"
    true ["svelte"]
].

Definition sample_storage : Storage := {| rows := sample_rows; next_id := 3 |}.

(** A three-row file whose second row has a date that does not parse. *)
Definition sample_file : list (RowError + Bookmark) := [
  inr (sample_row "" "https://x.com/b/status/7" "first" "2024-03-01T00:00:00Z" false []);
  inl {| row_index := 2; reason := UnparsableDate; fragment := "31/31/2024" |};
  inr (sample_row "" "https://x.com/b/status/9" "third" "2024-03-03T00:00:00Z" false [])
].

Definition sample_config : Config :=
  {| max_limit := 200;
     search_cap := 100;
     fts_match := λ q b, includes (toLowerCase q) (toLowerCase (content b));
     fts_rank := λ _ _, 0%nat;
     parse := λ path, if decide (path = "bookmarks.csv") then Resolved sample_file
                      else Rejected UnrecognizedFormat;
     fetch := λ _, Rejected IpcError |}.

(** ** Invariants of a session *)

Section Invariants.
Context {B : Type} {BE : Backend B}.

(** Every promise of the preview cache is fulfilled. *)
Definition cache_settled (w : World B) : Prop :=
  ∀ u p, previewCache w !! u = Some p → ∃ v, settled p = Resolved v.

(** A url is requested from the backend at most once, and only a url that
    has an entry in the cache has been requested. *)
Definition cache_covers (w : World B) : Prop :=
  ∀ u, (length (preview_requests u w) ≤ 1)%nat
       ∧ (preview_requests u w ≠ [] → is_Some (previewCache w !! u)).

(** A computation that leaves the preview cache alone and sends no
    [fetch_link_preview]. *)
Definition keeps_previews {A} (m : IO B A) : Prop :=
  ∀ w, previewCache (m w).2 = previewCache w
       ∧ ∀ u, preview_requests u (m w).2 = preview_requests u w.

Definition keeps_previews_fn (f : World B → World B) : Prop :=
  ∀ w, previewCache (f w) = previewCache w ∧ requests (f w) = requests w.
End Invariants.

(** The state of the frontend after [k] pages of the feed have been loaded
    with the limit [lim]. *)
Definition feed_loaded (cfg : Config) (lim : Z) (st : Storage) (k : nat)
    (w : World Storage) : Prop :=
  backend w = st
  ∧ bookmarks w = take (k * bounded_limit cfg lim) (merge_sort feed_order (rows st))
  ∧ feedMeta w = {| offset := Z.of_nat (length (bookmarks w)); limit := lim;
                    total := Z.of_nat (length (rows st));
                    hasMore := bool_decide (length (bookmarks w) < length (rows st))%nat |}
  ∧ isLoading w = false.

(** ** More of the frontend: what a call works with, layout, page, dates *)

(** The [limit] and the [offset] [loadBookmarks] computes from its options
    and the feed, in its first two lines. *)
Definition load_limit {B} (options : LoadOptions) (w : World B) : Z :=
  nullish (opt_limit options) (nullish (Some (limit (feedMeta w))) 50%Z).

Definition load_offset {B} (options : LoadOptions) (w : World B) : Z :=
  if opt_reset options then 0%Z
  else nullish (opt_offset options) (nullish (Some (offset (feedMeta w))) 0%Z).

(** [{ reset: true }] *)
Definition reset_options : LoadOptions :=
  {| opt_offset := None; opt_limit := None; opt_reset := true |}.


(** ** A call in progress

    [loadBookmarks] and the search-style calls are suspended once, at their
    [await]: the part before it runs when the function is called and sends
    the command, the part after it runs when the reply has come.  Other
    calls can run in between. *)

(** What a suspended [loadBookmarks] holds: its [offset] and [limit], and
    the reply it resumes with ([None] for the timer of the mock branch). *)
Record PendingLoad := {
  pending_offset : Z;
  pending_limit : Z;
  awaited : option (Outcome PaginatedResponse)
}.

Section InProgress.
Context {B : Type} {BE : Backend B}.
Variable isTauri : bool.

(** [loadBookmarks] from its first line to the [await]: the command is sent
    and the backend handles it; its reply waits in [awaited] until the call
    resumes. *)
Definition loadBookmarks_begin (options : LoadOptions) (w0 : World B)
    : PendingLoad * World B :=
  let limit := load_limit options w0 in
  let offset := load_offset options w0 in
  let w1 := if opt_reset options then feedMeta_reset limit (bookmarks_clear w0) else w0 in
  let w2 := if (offset =? 0)%Z then isLoading_set true w1 else w1 in
  if isTauri then
    let '(o, w3) := invoke (get_bookmarks offset limit) w2 in
    ({| pending_offset := offset; pending_limit := limit; awaited := Some o |}, w3)
  else
    ({| pending_offset := offset; pending_limit := limit; awaited := None |}, w2).

(** [loadBookmarks] from the [await] to its end, on the state of the
    moment. *)
Definition loadBookmarks_end (p : PendingLoad) : IO B unit :=
  let offset := pending_offset p in
  let limit := pending_limit p in
  finally
    (try_catch
      (match awaited p with
       | Some (Resolved response) =>
           (if (offset =? 0)%Z then modify (bookmarks_set (items response))
            else modify (bookmarks_append (items response)));;
           modify (feedMeta_update
             {| p_offset := Some (offset + Z.of_nat (length (items response)))%Z;
                p_limit := Some limit;
                p_total := Some (resp_total response);
                p_hasMore := Some (has_more response) |})
       | Some (Rejected e) => λ w, (Rejected e, w)
       | None =>
           (if (offset =? 0)%Z then modify (bookmarks_set mockBookmarks)
            else modify (bookmarks_append mockBookmarks));;
           modify (feedMeta_update
             {| p_offset := Some (offset + Z.of_nat (length mockBookmarks))%Z;
                p_limit := Some limit;
                p_total := Some (Z.of_nat (length mockBookmarks));
                p_hasMore := Some false |})
       end)
      (λ error, when (offset =? 0)%Z (modify (bookmarks_set []))))
    (λ w, if (offset =? 0)%Z then isLoading_set false w else w).

(** [loadMoreBookmarks] up to the [await] inside the [loadBookmarks] it
    calls: [None] when it has returned at once. *)
Definition loadMoreBookmarks_begin (w : World B) : option PendingLoad * World B :=
  if negb (hasMore (feedMeta w)) || isLoading w then (None, w)
  else
    let '(p, w') :=
      loadBookmarks_begin
        {| opt_offset := Some (offset (feedMeta w));
           opt_limit := Some (limit (feedMeta w));
           opt_reset := false |} w in
    (Some p, w').

(** A search-style call up to its [await]: the loading flag is set and the
    command sent. *)
Definition search_call_begin (c : SearchCall) (w : World B) : World B :=
  let w1 := isLoading_set true w in
  if isTauri then (invoke (search_command c) w1).2 else w1.
End InProgress.

(** The offset of the feed is the number of bookmarks in the list. *)
Definition offset_counts {B} (w : World B) : Prop :=
  offset (feedMeta w) = Z.of_nat (length (bookmarks w)).

(** Every promise of the preview cache is fulfilled with [null]. *)
Definition cache_null {B} (w : World B) : Prop :=
  ∀ u p, previewCache w !! u = Some p → settled p = Resolved None.

(** [sub] occurs in [s] once letter case is ignored. *)
Definition occurs_ignoring_case (sub s : string) : Prop :=
  ∃ pre post, toLowerCase s = pre ++ toLowerCase sub ++ post.

(** [window.localStorage], where there is a [window]; its [setItem] is taken
    to succeed. *)
Abbreviation LocalStorage := (gmap string string).

(** [type LayoutMode = 'default' | 'cards' | 'compact'], as a property of the
    string a layout is at run time. *)
Definition LayoutMode (s : string) : Prop := s = "default" ∨ s = "cards" ∨ s = "compact".

Definition resolveInitialLayout (win : option LocalStorage) : string :=
  match win with
  | None => "default"
  | Some localStorage =>
      match localStorage !! "eterea:layout" with
      | Some stored =>
          if bool_decide (stored = "cards" ∨ stored = "compact" ∨ stored = "default")
          then stored
          else "default"
      | None => "default"
      end
  end.

(** [createLayoutStore]: the [$state] of the store and the [window] it
    writes to. *)
Record LayoutStore := { layout : string; window : option LocalStorage }.

Definition createLayoutStore (win : option LocalStorage) : LayoutStore :=
  {| layout := resolveInitialLayout win; window := win |}.

Definition layoutMode_set (newLayout : string) (s : LayoutStore) : LayoutStore :=
  {| layout := newLayout;
     window := (λ localStorage, <["eterea:layout" := newLayout]> localStorage) <$> window s |}.

(** The stores the page reads ([searchQuery], [selectedTag]) and the two
    variables [lastQuery] and [lastTag] of its script, next to the state of
    the API layer. *)
Record Page (B : Type) := {
  world : World B;
  searchQuery : string;
  selectedTag : option string;
  lastQuery : option string;
  lastTag : option string
}.
Arguments world {B} _.
Arguments searchQuery {B} _.
Arguments selectedTag {B} _.
Arguments lastQuery {B} _.
Arguments lastTag {B} _.

Definition initial_page {B} (b : B) : Page B :=
  {| world := initial_world b; searchQuery := ""; selectedTag := None;
     lastQuery := None; lastTag := None |}.

(** [query || tag] as a condition. *)
Definition query_or_tag (query : string) (tag : option string) : bool :=
  bool_decide (query ≠ "") || bool_decide (is_Some (truthy_opt tag)).

Section PageScript.
Context {B : Type} {BE : Backend B}.
Variable isTauri : bool.

(** The function given to [$effect] in [routes/+page.svelte].  The call it
    makes is not awaited; it is run to its end here. *)
Definition reactive_search (p : Page B) : Page B :=
  let query := searchQuery p in
  let tag := selectedTag p in
  if bool_decide (Some query = lastQuery p ∧ tag = lastTag p) then p
  else
    {| world :=
         if query_or_tag query tag
         then (searchBookmarks isTauri query tag (world p)).2
         else (loadBookmarks isTauri reset_options (world p)).2;
       searchQuery := query; selectedTag := tag;
       lastQuery := Some query; lastTag := tag |}.

(** The command the effect has sent by the time it is done, with the
    backend. *)
Definition reactive_command (p : Page B) : Command :=
  if query_or_tag (searchQuery p) (selectedTag p)
  then search_bookmarks (truthy (searchQuery p)) (truthy_opt (selectedTag p)) 100
  else get_bookmarks 0 (limit (feedMeta (world p))).
End PageScript.

(** [formatDate] of the bookmark card, for a [dateString] that parses: [diff]
    is [now.getTime() - date.getTime()] in milliseconds, and [localeDate] is
    what [date.toLocaleDateString('en-US', ...)] gives. *)
Definition formatDate (diff : Z) (localeDate : string) : string :=
  let days := (diff `div` (1000 * 60 * 60 * 24))%Z in
  if (days =? 0)%Z then "Today"
  else if (days =? 1)%Z then "Yesterday"
  else if (days <? 7)%Z then pretty days ++ " days ago"
  else if (days <? 30)%Z then pretty (days `div` 7)%Z ++ " weeks ago"
  else if (days <? 365)%Z then pretty (days `div` 30)%Z ++ " months ago"
  else localeDate.

(** One day in milliseconds. *)
Definition day_ms : Z := 1000 * 60 * 60 * 24.

(** Texts and matches woven together: a text, a match, a text, and so on
    up to a last text. *)
Fixpoint weave (gaps ms : list string) : string :=
  match gaps, ms with
  | g :: gaps', m :: ms' => g ++ m ++ weave gaps' ms'
  | g :: _, [] => g
  | [], _ => ""
  end.

(** What the page shows of the feed, by the [{#if isLoading.value}] chain of
    [routes/+page.svelte]: the spinner, the invitation to import ("No
    bookmarks yet"), or the list with or without the button that loads
    more. *)
Inductive FeedView :=
  | FeedSpinner
  | NoBookmarks
  | FeedList (items : list Bookmark) (loadMoreButton : bool).

Definition feed_view {B} (w : World B) : FeedView :=
  if isLoading w then FeedSpinner
  else if decide (length (bookmarks w) = 0%nat) then NoBookmarks
  else FeedList (bookmarks w) (hasMore (feedMeta w)).

(** The [$state] of a bookmark card ([BookmarkCard.svelte]). *)
Record Card := { showMenu : bool; isTogglingFavorite : bool; avatarErrored : bool }.

Section CardScript.
Context {B : Type} {BE : Backend B}.
Variable isTauri : bool.

(** [handleToggleFavorite]: the flag is set for the time of the call. *)
Definition handleToggleFavorite (bookmark : Bookmark) (c : Card) (w : World B)
    : Outcome unit * (Card * World B) :=
  let c1 := {| showMenu := showMenu c; isTogglingFavorite := true;
               avatarErrored := avatarErrored c |} in
  let '(o, w') := toggleFavorite isTauri (id bookmark) w in
  (match o with Resolved _ => Resolved tt | Rejected e => Rejected e end,
   ({| showMenu := showMenu c1; isTogglingFavorite := false;
       avatarErrored := avatarErrored c1 |}, w')).

(** [handleDelete], for the answer [confirmed] given to the [confirm]
    dialog. *)
Definition handleDelete (confirmed : bool) (bookmark : Bookmark) (c : Card) (w : World B)
    : Outcome unit * (Card * World B) :=
  let closed := {| showMenu := false; isTogglingFavorite := isTogglingFavorite c;
                   avatarErrored := avatarErrored c |} in
  if confirmed then
    match deleteBookmark isTauri (id bookmark) w with
    | (Resolved _, w') => (Resolved tt, (closed, w'))
    | (Rejected e, w') => (Rejected e, (c, w'))
    end
  else (Resolved tt, (closed, w)).
End CardScript.

(** ** Statistics, import, and the pages that call them

    [loadStats] and [importFile] invoke two commands that are not among
    [Command], [get_stats] and [import_file]: a backend that has them
    answers through the class [StatsBackend], and they leave no entry in
    [requests]. *)

(** [BookmarkStats]; [favorite_bookmarks] is missing from [mockStats]. *)
Record BookmarkStats := {
  total_bookmarks : Z;
  unique_authors : Z;
  unique_tags : Z;
  favorite_bookmarks : option Z;
  earliest_date : option string;
  latest_date : option string;
  top_tags : list (string * Z)
}.

Definition mockStats : BookmarkStats :=
  {| total_bookmarks := 2;
     unique_authors := 2;
     unique_tags := 3;
     favorite_bookmarks := None;
     earliest_date := Some "2024-04-28T09:15:00Z";
     latest_date := Some "2024-05-01T14:30:00Z";
     top_tags := [("technology", 2%Z); ("programming", 1%Z); ("webdev", 1%Z)] |}.

Class StatsBackend (B : Type) := {
  get_stats : B → Outcome BookmarkStats * B;
  import_file_command : string → B → Outcome Z * B
}.

(** A backend whose statistics and import commands are out of order. *)
Definition no_stats {B} : StatsBackend B :=
  {| get_stats := λ b, (Rejected IpcError, b);
     import_file_command := λ _ b, (Rejected IpcError, b) |}.

(** The stores [stats] and [allTags] next to the state of the feed. *)
Record Frontend (B : Type) := {
  api : World B;
  stats : option BookmarkStats;
  allTags : list (string * Z)
}.
Arguments api {B} _.
Arguments stats {B} _.
Arguments allTags {B} _.

Definition initial_frontend {B} (b : B) : Frontend B :=
  {| api := initial_world b; stats := None; allTags := [] |}.

(** An [async] function that may touch all the stores. *)
Definition UI (B A : Type) : Type := Frontend B → Outcome A * Frontend B.

Definition set_backend {B} (b : B) (w : World B) : World B :=
  {| bookmarks := bookmarks w; feedMeta := feedMeta w; isLoading := isLoading w;
     previewCache := previewCache w; requests := requests w; backend := b |}.

Definition with_api {B} (w : World B) (f : Frontend B) : Frontend B :=
  {| api := w; stats := stats f; allTags := allTags f |}.

(** A function of the feed, run on the whole frontend. *)
Definition on_api {B A} (m : IO B A) : UI B A :=
  λ f, let '(o, w) := m (api f) in (o, with_api w f).

(** What the stats page is made of ([routes/stats/+page.svelte]): the error
    panel, the spinner, the figures, or the invitation to import. *)
Inductive StatsView :=
  | ErrorPanel (message : string)
  | Spinner
  | Figures (data : BookmarkStats)
  | NoStats.

(** The [$state] of the stats page. *)
Record StatsPage := { error : option string; loading : bool }.

(** The [$state] of the import dialog ([ImportModal.svelte]); the [error]
    of an import result is [result_error]. *)
Record ImportResult := { success : bool; count : Z; result_error : option string }.
Record ImportModal := { isImporting : bool; importResult : option ImportResult }.

Section Pages.
Context {B : Type} {BE : Backend B} {SB : StatsBackend B}.
Variable isTauri : bool.
(** [e instanceof Error ? e.message : String(e)], and the message of a
    rejection that is an [Error] object. *)
Variable describe : Error → string.
Variable error_message : Error → option string.

Definition loadStats : UI B unit := λ f,
  if isTauri then
    match get_stats (backend (api f)) with
    | (Resolved data, b') =>
        (Resolved tt,
         {| api := set_backend b' (api f); stats := Some data; allTags := top_tags data |})
    | (Rejected _, b') => (Resolved tt, with_api (set_backend b' (api f)) f)
    end
  else
    (Resolved tt, {| api := api f; stats := Some mockStats; allTags := top_tags mockStats |}).

(** [importFile]; the two calls given to [Promise.all] are both made, the
    reload of the feed first, and the first rejection is the one thrown. *)
Definition importFile (path : string) : UI B Z := λ f,
  if isTauri then
    match import_file_command path (backend (api f)) with
    | (Resolved count, b') =>
        let '(o1, f1) :=
          on_api (loadBookmarks isTauri reset_options)
            (with_api (set_backend b' (api f)) f) in
        let '(o2, f2) := loadStats f1 in
        match o1, o2 with
        | Resolved _, Resolved _ => (Resolved count, f2)
        | Rejected e, _ => (Rejected e, f2)
        | _, Rejected e => (Rejected e, f2)
        end
    | (Rejected e, b') => (Rejected e, with_api (set_backend b' (api f)) f)
    end
  else (Resolved 42%Z, f).

(** [onMount] of [routes/+page.svelte]. *)
Definition page_onMount : UI B unit := λ f,
  match loadStats f with
  | (Resolved _, f1) => on_api (loadBookmarks isTauri reset_options) f1
  | (Rejected e, f1) => (Rejected e, f1)
  end.

(** [onMount] of the stats page. *)
Definition stats_onMount (pg : StatsPage) (f : Frontend B) : StatsPage * Frontend B :=
  match loadStats f with
  | (Resolved _, f') => ({| error := error pg; loading := false |}, f')
  | (Rejected e, f') => ({| error := Some (describe e); loading := false |}, f')
  end.

(** The [{#if error} ... {:else if loading} ... {:else if stats.value}]
    chain of the stats page. *)
Definition stats_view (pg : StatsPage) (f : Frontend B) : StatsView :=
  match truthy_opt (error pg) with
  | Some message => ErrorPanel message
  | None =>
      if loading pg then Spinner
      else match stats f with Some data => Figures data | None => NoStats end
  end.

(** [doImport] of the import dialog, from its first line to the end of its
    [finally] block. *)
Definition doImport (path : string) (f : Frontend B) : ImportModal * Frontend B :=
  match importFile path f with
  | (Resolved count, f') =>
      ({| isImporting := false;
          importResult := Some {| success := true; count := count; result_error := None |} |},
       f')
  | (Rejected e, f') =>
      ({| isImporting := false;
          importResult :=
            Some {| success := false; count := 0;
                    result_error := Some (default "Import failed" (error_message e)) |} |},
       f')
  end.
End Pages.

(** * Properties *)

(** ** The monad *)

Section MonadFacts.
Context {B : Type} {BE : Backend B}.

Lemma keeps_ret {A} (a : A) : keeps_previews (B := B) (ret a).
Proof. intros w. done. Qed.

Lemma keeps_get_world : keeps_previews (B := B) get_world.
Proof. intros w. done. Qed.

Lemma keeps_bind {A C} (m : IO B A) (k : A → IO B C) :
  keeps_previews m → (∀ a, keeps_previews (k a)) → keeps_previews (bind m k).
Proof.
  intros Hm Hk w. unfold bind. specialize (Hm w).
  destruct (m w) as [[a|e] w']; simpl in *; [|done].
  destruct (Hk a w') as [Hc Hr]. destruct Hm as [Hc' Hr']. split.
  - by rewrite Hc.
  - intros u. by rewrite Hr.
Qed.

Lemma keeps_modify (f : World B → World B) :
  keeps_previews_fn f → keeps_previews (modify f).
Proof.
  intros Hf w. destruct (Hf w) as [Hc Hr]. simpl. split; [done|].
  intros u. unfold preview_requests. by rewrite Hr.
Qed.

Lemma keeps_when (c : bool) (m : IO B unit) :
  keeps_previews m → keeps_previews (when c m).
Proof. destruct c; [done|]. intros _. apply keeps_ret. Qed.

Lemma keeps_try_catch {A} (m : IO B A) (h : Error → IO B A) :
  keeps_previews m → (∀ e, keeps_previews (h e)) → keeps_previews (try_catch m h).
Proof.
  intros Hm Hh w. unfold try_catch. specialize (Hm w).
  destruct (m w) as [[a|e] w']; simpl in *; [done|].
  destruct (Hh e w') as [Hc Hr]. destruct Hm as [Hc' Hr']. split.
  - by rewrite Hc.
  - intros u. by rewrite Hr.
Qed.

Lemma keeps_finally {A} (m : IO B A) (f : World B → World B) :
  keeps_previews m → keeps_previews_fn f → keeps_previews (finally m f).
Proof.
  intros Hm Hf w. unfold finally. specialize (Hm w).
  destruct (m w) as [o w']; simpl in *.
  destruct (Hf w') as [Hc Hr]. destruct Hm as [Hc' Hr']. split.
  - by rewrite Hc.
  - intros u. unfold preview_requests in *. rewrite Hr. apply Hr'.
Qed.

Lemma keeps_invoke (c : Command) :
  is_preview_command c = false → keeps_previews (invoke c).
Proof.
  intros Hc w. unfold invoke. destruct (handle c (backend w)) as [o b']. simpl.
  split; [done|]. intros u. unfold preview_requests. simpl.
  rewrite filter_app, filter_cons_False, filter_nil, app_nil_r; [done|].
  intros ->. done.
Qed.

Lemma keeps_set_bookmarks l : keeps_previews_fn (B := B) (set_bookmarks l).
Proof. done. Qed.
Lemma keeps_set_feedMeta f : keeps_previews_fn (B := B) (set_feedMeta f).
Proof. done. Qed.
Lemma keeps_set_isLoading v : keeps_previews_fn (B := B) (set_isLoading v).
Proof. done. Qed.
End MonadFacts.

(** ** Which calls touch the preview cache *)

Ltac keeps_fn :=
  let w := fresh "w" in
  intros w; repeat case_match; split; reflexivity.

Ltac keeps_step :=
  first
    [ apply keeps_ret
    | apply keeps_get_world
    | apply keeps_bind; [|intros ?]
    | apply keeps_when
    | apply keeps_try_catch; [|intros ?]
    | apply keeps_finally; [|keeps_fn]
    | apply keeps_invoke; reflexivity
    | apply keeps_modify; keeps_fn
    | match goal with
      | |- keeps_previews (if ?c then _ else _) => destruct c
      | |- keeps_previews (match ?x with _ => _ end) => destruct x
      | |- keeps_previews (let '(_, _) := ?x in _) => destruct x
      end ].

Ltac keeps := repeat keeps_step.

Section ApiFrame.
Context {B : Type} {BE : Backend B}.
Variable isTauri : bool.

Lemma keeps_show_results l : keeps_previews (B := B) (show_results l).
Proof. unfold show_results. keeps. Qed.

Lemma keeps_loadBookmarks options : keeps_previews (loadBookmarks isTauri options).
Proof. unfold loadBookmarks. keeps. Qed.

Lemma keeps_loadMoreBookmarks : keeps_previews (loadMoreBookmarks isTauri).
Proof. unfold loadMoreBookmarks. keeps. Qed.

Lemma keeps_searchBookmarks query tag : keeps_previews (searchBookmarks isTauri query tag).
Proof. unfold searchBookmarks. keeps. Qed.

Lemma keeps_loadFavorites : keeps_previews (loadFavorites isTauri).
Proof. unfold loadFavorites. keeps. Qed.

Lemma keeps_searchWithFilters filters : keeps_previews (searchWithFilters isTauri filters).
Proof. unfold searchWithFilters. keeps. Qed.

Lemma keeps_toggleFavorite i : keeps_previews (toggleFavorite isTauri i).
Proof. unfold toggleFavorite, findIndex. keeps. Qed.

Lemma keeps_deleteBookmark i : keeps_previews (deleteBookmark isTauri i).
Proof. unfold deleteBookmark. keeps. Qed.

Lemma keeps_saveLimit l : keeps_previews (saveLimit isTauri l).
Proof. unfold saveLimit. keeps. Qed.
End ApiFrame.

(** The calls of the API layer other than [fetchLinkPreview]. *)
Ltac api_keeps :=
  first [ apply keeps_loadBookmarks | apply keeps_loadMoreBookmarks
        | apply keeps_searchBookmarks | apply keeps_loadFavorites
        | apply keeps_searchWithFilters | apply keeps_toggleFavorite
        | apply keeps_deleteBookmark | apply keeps_saveLimit ].

(** ** The preview cache *)

Section PreviewFacts.
Context {B : Type} {BE : Backend B}.
Variable isTauri : bool.

Lemma preview_task_resolved u (w : World B) :
  ∃ v, (preview_task isTauri u w).1 = Resolved v.
Proof.
  unfold preview_task, try_catch. destruct isTauri.
  - destruct (invoke (fetch_link_preview u) w) as [[v|e] w']; simpl; eauto.
  - simpl. eauto.
Qed.

Lemma preview_task_failure u (w : World B) e :
  isTauri = true →
  (handle (fetch_link_preview u) (backend w)).1 = Rejected e →
  (preview_task isTauri u w).1 = Resolved None.
Proof.
  intros -> He. unfold preview_task, try_catch, invoke.
  destruct (handle (fetch_link_preview u) (backend w)) as [o b'].
  simpl in He. subst o. done.
Qed.

Lemma preview_task_cache u (w : World B) :
  previewCache (preview_task isTauri u w).2 = previewCache w.
Proof.
  unfold preview_task, try_catch, invoke. destruct isTauri; [|done].
  destruct (handle (fetch_link_preview u) (backend w)) as [[v|e] b']; done.
Qed.

Lemma preview_task_requests u (w : World B) :
  requests (preview_task isTauri u w).2
  = (requests w ++ if isTauri then [fetch_link_preview u] else [])%list.
Proof.
  unfold preview_task, try_catch, invoke. destruct isTauri.
  - destruct (handle (fetch_link_preview u) (backend w)) as [[v|e] b']; done.
  - simpl. by rewrite app_nil_r.
Qed.

Lemma fetchLinkPreview_hit u p (w : World B) :
  previewCache w !! u = Some p → fetchLinkPreview isTauri u w = (p, w).
Proof. intros H. unfold fetchLinkPreview. by rewrite H. Qed.

Lemma fetchLinkPreview_miss u (w : World B) :
  previewCache w !! u = None →
  fetchLinkPreview isTauri u w
  = (let task := {| pid := size (previewCache w);
                    settled := (preview_task isTauri u w).1 |} in
     (task, set_previewCache (<[u := task]> (previewCache w))
              (preview_task isTauri u w).2)).
Proof.
  intros H. unfold fetchLinkPreview. rewrite H.
  pose proof (preview_task_cache u w) as Hc.
  destruct (preview_task isTauri u w) as [o w']. simpl in *. by rewrite Hc.
Qed.

(** After a call the url has an entry, the promise that was returned. *)
Lemma fetchLinkPreview_stores u (w : World B) :
  previewCache (fetchLinkPreview isTauri u w).2 !! u
  = Some (fetchLinkPreview isTauri u w).1.
Proof.
  destruct (previewCache w !! u) as [p|] eqn:H.
  - by rewrite (fetchLinkPreview_hit _ _ _ H).
  - rewrite (fetchLinkPreview_miss _ _ H). simpl. apply lookup_insert_eq.
Qed.

(** No call removes or replaces an entry of the cache. *)
Lemma step_cache_grows (w : World B) a u p :
  previewCache w !! u = Some p → previewCache (step isTauri w a) !! u = Some p.
Proof.
  intros H. destruct a as [options| |query tag| |filters|i|i|url0|l]; simpl;
    try (match goal with
         | |- previewCache (?m w).2 !! _ = _ =>
             let K := fresh in
             assert (keeps_previews m) as K by api_keeps;
             destruct (K w) as [-> _]; exact H
         end).
  destruct (previewCache w !! url0) as [q|] eqn:Hq.
  - by rewrite (fetchLinkPreview_hit _ _ _ Hq).
  - rewrite (fetchLinkPreview_miss _ _ Hq). simpl.
    rewrite lookup_insert_ne; [done|]. intros ->. congruence.
Qed.

Lemma run_cache_grows actions (w : World B) u p :
  previewCache w !! u = Some p → previewCache (run isTauri actions w) !! u = Some p.
Proof.
  revert w. induction actions as [|a actions IH]; intros w H; [done|].
  simpl. apply IH. by apply step_cache_grows.
Qed.

Lemma step_cache_settled (w : World B) a :
  cache_settled w → cache_settled (step isTauri w a).
Proof.
  intros Hs. destruct a as [options| |query tag| |filters|i|i|url0|l]; simpl;
    try (match goal with
         | |- cache_settled (?m w).2 =>
             let K := fresh in
             assert (keeps_previews m) as K by api_keeps;
             intros u p; destruct (K w) as [-> _]; apply Hs
         end).
  destruct (previewCache w !! url0) as [q|] eqn:Hq.
  - by rewrite (fetchLinkPreview_hit _ _ _ Hq).
  - rewrite (fetchLinkPreview_miss _ _ Hq). intros u p. simpl.
    destruct (decide (url0 = u)) as [->|Hne].
    + rewrite lookup_insert_eq. intros [= <-]. simpl. apply preview_task_resolved.
    + rewrite lookup_insert_ne by done. apply Hs.
Qed.

Lemma run_cache_settled actions (w : World B) :
  cache_settled w → cache_settled (run isTauri actions w).
Proof.
  revert w. induction actions as [|a actions IH]; intros w H; [done|].
  simpl. apply IH. by apply step_cache_settled.
Qed.

Lemma step_cache_covers (w : World B) a :
  cache_covers w → cache_covers (step isTauri w a).
Proof.
  intros Hs. destruct a as [options| |query tag| |filters|i|i|url0|l]; simpl;
    try (match goal with
         | |- cache_covers (?m w).2 =>
             let K := fresh in
             assert (keeps_previews m) as K by api_keeps;
             intros u; destruct (K w) as [Hc Hr]; rewrite Hc, Hr; apply Hs
         end).
  destruct (previewCache w !! url0) as [q|] eqn:Hq.
  - by rewrite (fetchLinkPreview_hit _ _ _ Hq).
  - rewrite (fetchLinkPreview_miss _ _ Hq). intros u. unfold preview_requests. simpl.
    rewrite preview_task_requests, filter_app.
    destruct (Hs u) as [Hlen Hsome]. unfold preview_requests in *.
    destruct (decide (url0 = u)) as [->|Hne].
    + rewrite lookup_insert_eq. split; [|eauto].
      destruct (filter _ (requests w)) as [|c l] eqn:Hf.
      * simpl. destruct isTauri; simpl; [|lia].
        rewrite filter_cons_True by done. simpl. lia.
      * destruct Hsome as [q Hq']; [done|congruence].
    + rewrite lookup_insert_ne by done.
      assert (filter (λ c, c = fetch_link_preview u)
                (if isTauri then [fetch_link_preview url0] else []) = []) as ->.
      { destruct isTauri; [|done]. rewrite filter_cons_False; [done|]. congruence. }
      by rewrite app_nil_r.
Qed.

Lemma run_cache_covers actions (w : World B) :
  cache_covers w → cache_covers (run isTauri actions w).
Proof.
  revert w. induction actions as [|a actions IH]; intros w H; [done|].
  simpl. apply IH. by apply step_cache_covers.
Qed.

Lemma initial_cache_settled (b : B) : cache_settled (initial_world b).
Proof. intros u p. simpl. by rewrite lookup_empty. Qed.

Lemma initial_cache_covers (b : B) : cache_covers (initial_world b).
Proof. intros u. unfold preview_requests. simpl. split; [lia|done]. Qed.
End PreviewFacts.

(** C6.  In every state a session can reach, [fetchLinkPreview(url)] returns
    a promise that is fulfilled, with a preview or with null, and never one
    that is rejected.  Where the url is not cached and the backend command
    [fetch_link_preview] fails, the failure is caught and the promise is
    fulfilled with null. *)
Theorem fetchLinkPreview_never_rejects {B} {BE : Backend B} (isTauri : bool) (b : B)
    (actions : list Action) (u : string) :
  let w := run isTauri actions (initial_world b) in
  (∃ v, settled (fetchLinkPreview isTauri u w).1 = Resolved v)
  ∧ (∀ e, isTauri = true →
          previewCache w !! u = None →
          (handle (fetch_link_preview u) (backend w)).1 = Rejected e →
          settled (fetchLinkPreview isTauri u w).1 = Resolved None).
Proof.
  intros w. split.
  - assert (cache_settled (step isTauri w (FetchLinkPreview u))) as Hs.
    { apply step_cache_settled, run_cache_settled, initial_cache_settled. }
    apply (Hs u). simpl. apply fetchLinkPreview_stores.
  - intros e Ht Hmiss He. rewrite (fetchLinkPreview_miss _ _ _ Hmiss). simpl.
    by apply (preview_task_failure isTauri u w e).
Qed.

(** C7.  Across a whole session the backend command [fetch_link_preview] is
    invoked at most once for a url; and once [fetchLinkPreview(url)] has
    returned a promise, every later call with that url, whatever happened in
    between, returns that same promise and changes nothing: no request is
    sent again, whether the promise holds a preview or the null of a failed
    fetch. *)
Theorem preview_fetched_once {B} {BE : Backend B} (isTauri : bool) (b : B)
    (actions later : list Action) (u : string) :
  let w := run isTauri actions (initial_world b) in
  let w1 := (fetchLinkPreview isTauri u w).2 in
  let w2 := run isTauri later w1 in
  (length (preview_requests u w2) ≤ 1)%nat
  ∧ fetchLinkPreview isTauri u w2 = ((fetchLinkPreview isTauri u w).1, w2).
Proof.
  intros w w1 w2. split.
  - assert (cache_covers w2) as Hc.
    { apply run_cache_covers.
      apply (step_cache_covers isTauri w (FetchLinkPreview u)).
      apply run_cache_covers, initial_cache_covers. }
    apply Hc.
  - apply fetchLinkPreview_hit, run_cache_grows, fetchLinkPreview_stores.
Qed.

(** C6 at the first call for a url, with a backend whose
    [fetch_link_preview] fails. *)
Lemma fetchLinkPreview_never_rejects_witness :
  let w := initial_world (B := Storage) sample_storage in
  previewCache w !! "https://e.f" = None
  ∧ (handle (Backend := core_backend sample_config)
       (fetch_link_preview "https://e.f") (backend w)).1 = Rejected IpcError
  ∧ settled (fetchLinkPreview (BE := core_backend sample_config) true "https://e.f" w).1
    = Resolved None.
Proof.
  intros w.
  assert (previewCache w !! "https://e.f" = None) as Hmiss by reflexivity.
  assert ((handle (Backend := core_backend sample_config)
             (fetch_link_preview "https://e.f") (backend w)).1 = Rejected IpcError)
    as Hfail by reflexivity.
  split; [exact Hmiss|]. split; [exact Hfail|].
  exact (proj2 (fetchLinkPreview_never_rejects (BE := core_backend sample_config)
                  true sample_storage [] "https://e.f") IpcError eq_refl Hmiss Hfail).
Defined.

(** ** Link targets *)

Section LinkFacts.
Lemma string_app_cons c (s t : string) : String c s ++ t = String c (s ++ t).
Proof. reflexivity. Qed.

Lemma string_app_assoc (s t v : string) : (s ++ t) ++ v = s ++ (t ++ v).
Proof. induction s as [|c s IH]; [done|]. rewrite !string_app_cons. by f_equal. Qed.

Lemma string_app_length (s t : string) :
  String.length (s ++ t) = (String.length s + String.length t)%nat.
Proof. induction s as [|c s IH]; [done|]. rewrite string_app_cons. simpl. by f_equal. Qed.

Lemma strip_prefix_app p s r : strip_prefix p s = Some r → s = p ++ r.
Proof.
  revert s. induction p as [|a p IH]; intros s; simpl.
  - by intros [= ->].
  - destruct s as [|b s]; [done|]. case_decide as Hab; [|done].
    intros Hr. subst b. rewrite string_app_cons. f_equal. by apply IH.
Qed.

Lemma span_non_space_app s m r :
  span_non_space s = (m, r) → s = m ++ r ∧ no_space m = true.
Proof.
  revert m r. induction s as [|c s IH]; intros m r; simpl.
  - by intros [= <- <-].
  - destruct (is_white_space c) eqn:Hc.
    + by intros [= <- <-].
    + destruct (span_non_space s) as [m' r']. intros [= <- <-].
      destruct (IH m' r' eq_refl) as [-> Hm]. rewrite string_app_cons.
      split; [done|]. simpl. by rewrite Hc, Hm.
Qed.

Lemma match_tail_app s m rest :
  match_tail s = Some (m, rest) →
  s = m ++ rest ∧ ∃ r, m = "://" ++ r ∧ r ≠ "" ∧ no_space r = true.
Proof.
  unfold match_tail. destruct (strip_prefix "://" s) as [r|] eqn:Hp; [|done].
  apply strip_prefix_app in Hp as ->.
  destruct (span_non_space r) as [m' rest'] eqn:Hs.
  apply span_non_space_app in Hs as [-> Hm].
  destruct m' as [|c m']; [done|]. intros [= <- <-]. split.
  - by rewrite string_app_assoc.
  - exists (String c m'). done.
Qed.

Lemma match_url_at_app s m rest :
  match_url_at s = Some (m, rest) → s = m ++ rest ∧ url_shaped m.
Proof.
  unfold match_url_at. destruct (strip_prefix "http" s) as [r|] eqn:Hp; [|done].
  apply strip_prefix_app in Hp as ->.
  destruct (strip_prefix "s" r ≫= match_tail) as [[m' rest']|] eqn:Hs.
  - intros [= <- <-]. apply bind_Some in Hs as (r' & Hr' & Ht).
    apply strip_prefix_app in Hr' as ->.
    apply match_tail_app in Ht as (-> & run & -> & Hne & Hno). split.
    + rewrite !string_app_assoc. reflexivity.
    + exists run. split; [by right|done].
  - destruct (match_tail r) as [[m' rest']|] eqn:Ht; [|done].
    intros [= <- <-].
    apply match_tail_app in Ht as (-> & run & -> & Hne & Hno). split.
    + rewrite !string_app_assoc. reflexivity.
    + exists run. split; [by left|done].
Qed.

Lemma url_shaped_length m : url_shaped m → (8 ≤ String.length m)%nat.
Proof.
  intros (r & [-> | ->] & Hne & _); destruct r as [|c r]; try done;
    rewrite string_app_length; simpl; lia.
Qed.

(** Every match is a piece of the text and has the shape of a url. *)
Lemma match_all_from_sound n s m :
  m ∈ match_all_from n s → url_shaped m ∧ ∃ pre post, s = pre ++ m ++ post.
Proof.
  revert s. induction n as [|n IH]; intros s; simpl; [by intros ?%elem_of_nil|].
  destruct (match_url_at s) as [[m' rest]|] eqn:Hm.
  - apply match_url_at_app in Hm as [-> Hshape].
    intros [->|Hin]%elem_of_cons.
    + split; [done|]. by exists "", rest.
    + destruct (IH _ Hin) as (Hs & pre & post & ->). split; [done|].
      exists (m' ++ pre), post. by rewrite string_app_assoc.
  - destruct s as [|c s]; [by intros ?%elem_of_nil|].
    intros Hin. destruct (IH _ Hin) as (Hs & pre & post & ->). split; [done|].
    by exists (String c pre), post.
Qed.

(** The attempts never run out: any larger bound gives the same matches. *)
Lemma match_all_from_enough n s :
  (String.length s < n)%nat → match_all_from n s = match_all s.
Proof.
  unfold match_all. remember (String.length s) as k eqn:Hk.
  assert (String.length s ≤ k)%nat as Hle by lia. clear Hk.
  revert n s Hle. induction k as [|k IH]; intros n s Hle Hn.
  - destruct s as [|c s]; [|simpl in Hle; lia].
    destruct n as [|n]; [lia|]. simpl.
    destruct (match_url_at "") as [[m rest]|] eqn:Hm; [|done].
    apply match_url_at_app in Hm as [Hs Hshape].
    apply url_shaped_length in Hshape.
    assert (String.length (m ++ rest) = 0)%nat as Hl by (by rewrite <- Hs).
    rewrite string_app_length in Hl. lia.
  - destruct n as [|n]; [lia|].
    change (match_all_from (S n) s) with
      (match match_url_at s with
       | Some (m, rest) => m :: match_all_from n rest
       | None => match s with "" => [] | String _ s' => match_all_from n s' end
       end).
    change (match_all_from (S (S k)) s) with
      (match match_url_at s with
       | Some (m, rest) => m :: match_all_from (S k) rest
       | None => match s with "" => [] | String _ s' => match_all_from (S k) s' end
       end).
    destruct (match_url_at s) as [[m rest]|] eqn:Hm.
    + apply match_url_at_app in Hm as [-> Hshape].
      apply url_shaped_length in Hshape. rewrite string_app_length in Hle.
      f_equal. rewrite (IH n rest); [done|lia..].
    + destruct s as [|c s]; [done|]. simpl in Hle.
      rewrite (IH n s); [done|lia..].
Qed.

Lemma strip_trailing_punct_app s :
  ∃ t, s = strip_trailing_punct s ++ t ∧ all_punct t = true.
Proof.
  induction s as [|c s (t & IH & Ht)]; [by exists ""|].
  change (strip_trailing_punct (String c s)) with
    (if all_punct (String c s) then "" else String c (strip_trailing_punct s)).
  destruct (all_punct (String c s)) eqn:Hall.
  - by exists (String c s).
  - exists t. rewrite string_app_cons. split; [by f_equal|done].
Qed.

Lemma strip_trailing_punct_empty s :
  strip_trailing_punct s = "" → all_punct s = true.
Proof.
  intros H. destruct (strip_trailing_punct_app s) as (t & Hs & Ht).
  rewrite H in Hs. change (s = t) in Hs. by subst t.
Qed.

(** What is left does not end in one of [,.!?]. *)
Lemma strip_trailing_punct_last s c :
  last_char (strip_trailing_punct s) = Some c → is_trailing_punct c = false.
Proof.
  induction s as [|a s IH]; [done|].
  change (strip_trailing_punct (String a s)) with
    (if all_punct (String a s) then "" else String a (strip_trailing_punct s)).
  destruct (all_punct (String a s)) eqn:Hall; [done|].
  destruct (strip_trailing_punct s) as [|b r] eqn:Hr.
  - apply strip_trailing_punct_empty in Hr. simpl in Hall. rewrite Hr in Hall.
    intros [= <-]. by rewrite andb_true_r in Hall.
  - intros Hl. apply IH. exact Hl.
Qed.

Lemma array_from_set_acc (l acc : list string) :
  NoDup acc →
  NoDup (foldl (λ acc x, if decide (x ∈ acc) then acc else (acc ++ [x])%list) acc l)
  ∧ ∀ x, x ∈ foldl (λ acc x, if decide (x ∈ acc) then acc else (acc ++ [x])%list) acc l
         ↔ x ∈ acc ∨ x ∈ l.
Proof.
  revert acc. induction l as [|y l IH]; intros acc Hnd; simpl.
  - split; [done|]. intros x. rewrite elem_of_nil. tauto.
  - case_decide as Hy.
    + destruct (IH acc Hnd) as [Hn Hin]. split; [done|].
      intros x. rewrite Hin, elem_of_cons. split; [tauto|].
      intros [?|[->|?]]; tauto.
    + assert (NoDup (acc ++ [y])) as Hnd'.
      { apply NoDup_app. split_and!; [done| |apply NoDup_singleton].
        intros x Hx ->%list_elem_of_singleton. done. }
      destruct (IH _ Hnd') as [Hn Hin]. split; [done|].
      intros x. rewrite Hin, elem_of_app, list_elem_of_singleton, elem_of_cons.
      tauto.
Qed.

Lemma array_from_set_NoDup l : NoDup (array_from_set l).
Proof. apply array_from_set_acc, NoDup_nil_2. Qed.

Lemma elem_of_array_from_set l x : x ∈ array_from_set l ↔ x ∈ l.
Proof.
  unfold array_from_set.
  destruct (array_from_set_acc l [] (NoDup_nil_2)) as [_ H].
  rewrite H, elem_of_nil. tauto.
Qed.
(** The search for matches, one attempt at a time. *)
Lemma match_all_unfold s :
  match_all s
  = match match_url_at s with
    | Some (m, rest) => m :: match_all rest
    | None => match s with "" => [] | String _ s' => match_all s' end
    end.
Proof.
  unfold match_all at 1.
  change (match_all_from (S (String.length s)) s) with
    (match match_url_at s with
     | Some (m, rest) => m :: match_all_from (String.length s) rest
     | None =>
         match s with "" => [] | String _ s' => match_all_from (String.length s) s' end
     end).
  destruct (match_url_at s) as [[m rest]|] eqn:Hm.
  - apply match_url_at_app in Hm as [-> Hshape]. apply url_shaped_length in Hshape.
    rewrite match_all_from_enough; [done|]. rewrite string_app_length. lia.
  - destruct s as [|c s]; [done|]. rewrite match_all_from_enough; [done|]. simpl. lia.
Qed.

Lemma no_space_app s t : no_space (s ++ t) = no_space s && no_space t.
Proof.
  induction s as [|c s IH]; [done|]. rewrite string_app_cons. simpl.
  by rewrite IH, andb_assoc.
Qed.

Lemma url_shaped_no_space m : url_shaped m → no_space m = true.
Proof. intros (r & [-> | ->] & _ & Hr); rewrite no_space_app, Hr; reflexivity. Qed.

Lemma span_non_space_word r rest :
  no_space r = true → at_word_end rest = true → span_non_space (r ++ rest) = (r, rest).
Proof.
  intros Hr Hrest. induction r as [|c r IH].
  - destruct rest as [|c rest]; [done|]. simpl in Hrest.
    change ("" ++ String c rest) with (String c rest). simpl. by rewrite Hrest.
  - simpl in Hr. apply andb_true_iff in Hr as [Hc Hr]. apply negb_true_iff in Hc.
    rewrite string_app_cons. simpl. by rewrite Hc, (IH Hr).
Qed.

Lemma match_tail_word r rest :
  r ≠ "" → no_space r = true → at_word_end rest = true →
  match_tail ("://" ++ r ++ rest) = Some ("://" ++ r, rest).
Proof.
  intros Hne Hr Hrest. unfold match_tail.
  change (strip_prefix "://" ("://" ++ r ++ rest)) with (Some (r ++ rest)).
  cbv beta iota. rewrite span_non_space_word by done. by destruct r.
Qed.

(** A url that ends where a word ends is matched whole at its start. *)
Lemma match_url_at_word u rest :
  url_shaped u → at_word_end rest = true → match_url_at (u ++ rest) = Some (u, rest).
Proof.
  intros (r & Hu & Hne & Hr) Hrest. unfold match_url_at.
  destruct Hu as [-> | ->]; rewrite string_app_assoc.
  - change (strip_prefix "http" ("http://" ++ r ++ rest)) with (Some ("://" ++ r ++ rest)).
    cbv beta iota.
    change (strip_prefix "s" ("://" ++ r ++ rest)) with (@None string).
    cbn [mbind option_bind]. cbv beta iota. by rewrite match_tail_word.
  - change (strip_prefix "http" ("https://" ++ r ++ rest)) with (Some ("s://" ++ r ++ rest)).
    cbv beta iota.
    change (strip_prefix "s" ("s://" ++ r ++ rest)) with (Some ("://" ++ r ++ rest)).
    cbn [mbind option_bind]. cbv beta iota. by rewrite match_tail_word.
Qed.

(** A match cannot reach over the white space that ends [pre]. *)
Lemma match_within_prefix m r pre s c :
  m ++ r = pre ++ s → no_space m = true →
  last_char pre = Some c → is_white_space c = true →
  ∃ pre', pre = m ++ pre' ∧ r = pre' ++ s ∧ last_char pre' = Some c.
Proof.
  revert pre. induction m as [|a m IH]; intros pre Heq Hm Hl Hc.
  - by exists pre.
  - destruct pre as [|b pre]; [done|]. rewrite !string_app_cons in Heq.
    injection Heq as <- Heq. simpl in Hm. apply andb_true_iff in Hm as [Ha Hm].
    apply negb_true_iff in Ha. destruct pre as [|b' pre].
    + simpl in Hl. injection Hl as ->. congruence.
    + change (last_char (String a (String b' pre))) with (last_char (String b' pre)) in Hl.
      destruct (IH _ Heq Hm Hl Hc) as (pre' & Hp & Hr & Hl').
      exists pre'. rewrite string_app_cons. by rewrite <- Hp.
Qed.

Lemma last_char_cons c s : is_Some (last_char (String c s)).
Proof.
  revert c. induction s as [|b s IH]; intros c; [by eexists|].
  change (last_char (String c (String b s))) with (last_char (String b s)). apply IH.
Qed.

(** What is matched in a text is matched behind any text that ends a word. *)
Lemma match_all_after_word n pre s u :
  (String.length pre ≤ n)%nat → at_word_start pre = true →
  u ∈ match_all s → u ∈ match_all (pre ++ s).
Proof.
  revert pre. induction n as [|n IH]; intros pre Hlen Hpre Hu.
  - destruct pre as [|c pre]; [done|]. simpl in Hlen. lia.
  - destruct pre as [|c pre]; [done|]. simpl in Hlen.
    unfold at_word_start in Hpre.
    destruct (last_char_cons c pre) as [d Hl]. rewrite Hl in Hpre.
    rewrite match_all_unfold.
    destruct (match_url_at (String c pre ++ s)) as [[m r]|] eqn:Hm.
    + apply match_url_at_app in Hm as [Heq Hshape].
      destruct (match_within_prefix m r (String c pre) s d) as (pre' & Hp & -> & Hl');
        [done|by apply url_shaped_no_space|done|done|].
      apply elem_of_cons. right. apply IH; [| |done].
      * apply url_shaped_length in Hshape.
        assert (String.length (String c pre) = String.length (m ++ pre')) as Hlp
          by (by rewrite Hp).
        rewrite string_app_length in Hlp. simpl in Hlp. lia.
      * unfold at_word_start. by rewrite Hl'.
    + rewrite string_app_cons. apply IH; [lia| |done].
      unfold at_word_start. destruct pre as [|c' pre]; [done|].
      change (last_char (String c (String c' pre))) with (last_char (String c' pre)) in Hl.
      by rewrite Hl.
Qed.

(** A url that stands as a word of its own in a text is one of the matches. *)
Lemma match_all_complete pre u post :
  at_word_start pre = true → url_shaped u → at_word_end post = true →
  u ∈ match_all (pre ++ u ++ post).
Proof.
  intros Hpre Hu Hpost. apply (match_all_after_word (String.length pre)); [done|done|].
  rewrite match_all_unfold, match_url_at_word by done. apply elem_of_cons. by left.
Qed.
End LinkFacts.

(** What a call of the function held by [linkTargets] would return: a list
    with no url twice and never the bookmark's own [tweet_url]; a url is in
    it exactly when it differs from [tweet_url] and is a match of the url
    pattern in [content] with its trailing run of [,.!?] cut off.  Each such
    match is a piece of [content] that starts with [http://] or [https://]
    and has no white space, a url of the list does not end in one of
    [,.!?], and every url that stands as a word of its own in [content] is
    in the list, unless it is the [tweet_url] once its trailing punctuation
    is cut off. *)
Lemma linkTargets_returns (bookmark : Bookmark) :
  NoDup (linkTargets bookmark)
  ∧ (tweet_url bookmark ∉ linkTargets bookmark)
  ∧ (∀ u, u ∈ linkTargets bookmark ↔
          u ≠ tweet_url bookmark
          ∧ ∃ m, m ∈ match_all (content bookmark) ∧ u = strip_trailing_punct m)
  ∧ (∀ m, m ∈ match_all (content bookmark) →
          url_shaped m
          ∧ (∃ pre post, content bookmark = pre ++ m ++ post)
          ∧ ∃ t, m = strip_trailing_punct m ++ t ∧ all_punct t = true)
  ∧ (∀ u c, u ∈ linkTargets bookmark → last_char u = Some c →
            is_trailing_punct c = false)
  ∧ (∀ pre u post,
       content bookmark = pre ++ u ++ post →
       at_word_start pre = true → url_shaped u → at_word_end post = true →
       strip_trailing_punct u ≠ tweet_url bookmark →
       strip_trailing_punct u ∈ linkTargets bookmark).
Proof.
  assert (∀ u, u ∈ linkTargets bookmark ↔
            u ≠ tweet_url bookmark
            ∧ ∃ m, m ∈ match_all (content bookmark) ∧ u = strip_trailing_punct m) as Hin.
  { intros u. unfold linkTargets.
    rewrite elem_of_array_from_set, list_elem_of_filter, list_elem_of_fmap.
    split; intros [? (m & ? & ?)]; eauto. }
  split_and!.
  - apply array_from_set_NoDup.
  - rewrite Hin. tauto.
  - exact Hin.
  - intros m Hm. destruct (match_all_from_sound _ _ _ Hm) as [Hs Hp].
    split_and!; [done..|]. apply strip_trailing_punct_app.
  - intros u c (_ & m & _ & ->)%Hin. apply strip_trailing_punct_last.
  - intros pre u post Hc Hpre Hu Hpost Hne. apply Hin. split; [done|].
    exists u. split; [|done]. rewrite Hc. by apply match_all_complete.
Qed.

Example linkTargets_sample :
  linkTargets
    {| id := "9"; tweet_url := "https://x.com/a/status/1";
       content := "see https://x.com/a/status/1, http://a.b/c?d=1... and https httpx://no
https://e.f! (http://a.b/c?d=1) http:// https://";
       note_text := None; tweeted_at := ""; imported_at := ""; author_handle := "";
       author_name := ""; author_profile_url := None; author_profile_image := None;
       tags := []; comments := None; media := []; is_favorite := false |}
  = ["http://a.b/c?d=1"; "https://e.f"; "http://a.b/c?d=1)"].
Proof. vm_compute. reflexivity. Qed.

(** C9.  The card offers no link target.  [linkTargets] holds the arrow
    function itself, not the list it would compute, and the [length] of that
    function is 0: the [{#if linkTargets.length > 0}] around the previews
    never opens.  For a bookmark whose content has a url that is not its own
    [tweet_url], a call of the function would return that url, and the card
    renders no preview for it. *)
Theorem card_offers_no_target :
  let bookmark :=
    sample_row "9" "https://x.com/a/status/9" "read https://example.com/post, then reply"
      "2024-05-01T14:30:00Z" false [] in
  call (linkTargets_derived bookmark) tt = ["https://example.com/post"]
  ∧ card_previews bookmark = []
  ∧ ∀ b : Bookmark, card_previews b = [].
Proof. split_and!; [by vm_compute|reflexivity|reflexivity]. Qed.

(** ** Toggling a favorite *)

Section ToggleFacts.
Context {B : Type} {BE : Backend B}.
Variable isTauri : bool.










End ToggleFacts.

(** The modelled core keeps to what C2 takes of the backend: it answers
    with the negation of the stored flag, and stores it. *)
Lemma get_by_id_set_favorite i v st r :
  get_by_id i st = Some r → get_by_id i (set_favorite i v st) = Some (with_favorite v r).
Proof.
  unfold get_by_id, set_favorite, mark_favorite. cbn [rows].
  induction (rows st) as [|x l IH]; [done|]. cbn [list_find fmap list_fmap].
  destruct (decide (id x = i)) as [Hx|Hx].
  - change (id (with_favorite v x)) with (id x). rewrite decide_True by done.
    cbn. by intros [= <-].
  - rewrite decide_False by done.
    destruct (list_find (λ b, id b = i) l) as [[k y]|]; [|done].
    cbn in IH |- *. intros [= <-]. specialize (IH eq_refl).
    destruct (list_find _ _) as [[k' y']|]; [|done].
    cbn in IH |- *. by injection IH as ->.
Qed.

Lemma core_toggle_twice cfg st i r :
  get_by_id i st = Some r →
  let st1 := set_favorite i (negb (is_favorite r)) st in
  handle (Backend := core_backend cfg) (toggle_favorite i) st
  = (Resolved (negb (is_favorite r)), st1)
  ∧ handle (Backend := core_backend cfg) (toggle_favorite i) st1
    = (Resolved (is_favorite r), set_favorite i (is_favorite r) st1).
Proof.
  intros Hr st1. cbn [handle core_backend]. unfold toggle_favorite_command.
  rewrite Hr. split; [done|]. unfold st1.
  rewrite (get_by_id_set_favorite _ _ _ _ Hr). cbn [is_favorite with_favorite].
  by rewrite negb_involutive.
Qed.



(** ** One call of [loadBookmarks] *)

Section LoadRun.
Context {B : Type} {BE : Backend B}.

Lemma loadBookmarks_tauri options (w : World B) :
  let lim := load_limit options w in
  let off := load_offset options w in
  loadBookmarks true options w
  = (Resolved tt,
     let sent := (requests w ++ [get_bookmarks off lim])%list in
     let loading := if (off =? 0)%Z then false else isLoading w in
     match handle (get_bookmarks off lim) (backend w) with
     | (Resolved r, b') =>
         {| bookmarks := if (off =? 0)%Z then items r else (bookmarks w ++ items r)%list;
            feedMeta := {| offset := off + Z.of_nat (length (items r)); limit := lim;
                           total := resp_total r; hasMore := has_more r |};
            isLoading := loading; previewCache := previewCache w;
            requests := sent; backend := b' |}
     | (Rejected e, b') =>
         {| bookmarks := if (off =? 0)%Z then [] else bookmarks w;
            feedMeta := if opt_reset options
                        then {| offset := 0; limit := lim; total := 0; hasMore := true |}
                        else feedMeta w;
            isLoading := loading; previewCache := previewCache w;
            requests := sent; backend := b' |}
     end).
Proof.
  destruct options as [oo ol [|]]; unfold load_limit, load_offset; cbn [opt_reset opt_limit opt_offset].
  - unfold loadBookmarks, bind, get_world, finally, try_catch, invoke, when, modify.
    cbn. destruct (handle _ _) as [[r|e] b']; reflexivity.
  - unfold loadBookmarks, bind, get_world, finally, try_catch, invoke, when, modify.
    cbn [opt_reset opt_limit opt_offset ret].
    destruct (nullish oo _ =? 0)%Z; cbn; destruct (handle _ _) as [[r|e] b']; try reflexivity.
    all: destruct w; reflexivity.
Qed.

Lemma loadBookmarks_mock options (w : World B) :
  let lim := load_limit options w in
  let off := load_offset options w in
  loadBookmarks false options w
  = (Resolved tt,
     {| bookmarks := if (off =? 0)%Z then mockBookmarks else (bookmarks w ++ mockBookmarks)%list;
        feedMeta := {| offset := off + Z.of_nat (length mockBookmarks); limit := lim;
                       total := Z.of_nat (length mockBookmarks); hasMore := false |};
        isLoading := if (off =? 0)%Z then false else isLoading w;
        previewCache := previewCache w; requests := requests w; backend := backend w |}).
Proof.
  destruct options as [oo ol [|]]; unfold load_limit, load_offset; cbn [opt_reset opt_limit opt_offset].
  - reflexivity.
  - unfold loadBookmarks, bind, get_world, finally, try_catch, invoke, when, modify.
    cbn [opt_reset opt_limit opt_offset ret].
    destruct (nullish oo _ =? 0)%Z; reflexivity.
Qed.
End LoadRun.

Lemma loadBookmarks_requests {B} {BE : Backend B} isTauri options (w : World B) :
  requests (loadBookmarks isTauri options w).2
  = (requests w
     ++ if isTauri then [get_bookmarks (load_offset options w) (load_limit options w)]
        else [])%list.
Proof.
  destruct isTauri.
  - rewrite loadBookmarks_tauri. cbn zeta. cbn [snd]. by destruct (handle _ _) as [[r|e] b'].
  - rewrite loadBookmarks_mock. cbn. by rewrite app_nil_r.
Qed.

(** ** Search-style calls *)

Section SearchFacts.
Context {B : Type} {BE : Backend B}.

Lemma show_results_run r (w : World B) :
  finally (show_results r) (isLoading_set false) w = (Resolved tt, results_world r w).
Proof. reflexivity. Qed.

(** With the backend: one command, and the feed is replaced when it
    succeeds, left alone when it fails. *)
Lemma search_call_tauri (c : SearchCall) (w : World B) :
  search_call true c w
  = (Resolved tt,
     let w1 := (invoke (search_command c) w).2 in
     match (handle (search_command c) (backend w)).1 with
     | Resolved r => results_world (reply_rows c r) w1
     | Rejected _ => isLoading_set false w1
     end).
Proof.
  destruct c; simpl;
    unfold searchBookmarks, loadFavorites, searchWithFilters, finally, try_catch, bind,
      invoke, modify; simpl;
    match goal with |- context [handle ?c ?b] => destruct (handle c b) as [[r|e] b'] end;
    reflexivity.
Qed.

(** Without the backend: no command, and the feed holds some of the mock
    bookmarks, in their order. *)
Lemma search_call_mock (c : SearchCall) (w : World B) :
  ∃ r, search_call false c w = (Resolved tt, results_world r w)
       ∧ r `sublist_of` mockBookmarks.
Proof.
  destruct c; unfold search_call;
    unfold searchBookmarks, loadFavorites, searchWithFilters, finally, try_catch, bind,
      modify, show_results; eexists; (split; [reflexivity|]);
    repeat case_match;
    repeat (etrans; [apply sublist_filter|]); reflexivity.
Qed.

Lemma loadMore_after_results isTauri r (w : World B) :
  loadMoreBookmarks isTauri (results_world r w) = (Resolved tt, results_world r w).
Proof. reflexivity. Qed.

Lemma search_command_limit c : command_limit (search_command c) = Some 100%Z.
Proof. by destruct c. Qed.
End SearchFacts.

Lemma run_query_length cfg f l st :
  (length (run_query cfg f l st) ≤ Z.to_nat l `min` search_cap cfg)%nat.
Proof. unfold run_query. rewrite length_take. lia. Qed.

Lemma core_search_reply cfg c st r :
  (handle (Backend := core_backend cfg) (search_command c) st).1 = Resolved r →
  (length (reply_rows c r) ≤ 100)%nat.
Proof.
  destruct c; simpl; intros [= <-];
    unfold search_bookmarks_command, get_favorites_command, search_with_filters_command;
    (etrans; [apply run_query_length|]); cbn [arg_limit]; lia.
Qed.

(** C4, as the code has it.  A search-style call ([searchBookmarks],
    [searchWithFilters], [loadFavorites]) sends one command, with limit 100,
    never rejects, and is never paged: whatever [loadMoreBookmarks] sends
    after it is a page of the feed ([get_bookmarks]), not a further page of
    the search.  When the command succeeds (or without the backend, on the
    mock data) the feed is replaced by the reply, [hasMore] is false and
    [loadMoreBookmarks] fetches nothing.  When the command fails, the
    bookmark list and the feed metadata, [hasMore] included, are left as
    they were.  The reply of the modelled core has at most 100 items, so
    with it the list has at most 100 bookmarks after the call; without the
    backend it has at most the two mock bookmarks. *)
Theorem search_call_single_page {B} {BE : Backend B} (isTauri : bool)
    (c : SearchCall) (w : World B) :
  let w' := (search_call isTauri c w).2 in
  (search_call isTauri c w).1 = Resolved tt
  ∧ requests w' = (requests w ++ if isTauri then [search_command c] else [])%list
  ∧ command_limit (search_command c) = Some 100%Z
  ∧ ((isTauri = true
      ∧ (∃ e, (handle (search_command c) (backend w)).1 = Rejected e)
      ∧ bookmarks w' = bookmarks w
      ∧ feedMeta w' = feedMeta w)
     ∨ ((if isTauri
         then ∃ r, (handle (search_command c) (backend w)).1 = Resolved r
                   ∧ bookmarks w' = reply_rows c r
         else bookmarks w' ⊆ mockBookmarks)
        ∧ feedMeta w' = {| offset := Z.of_nat (length (bookmarks w')); limit := 100;
                           total := Z.of_nat (length (bookmarks w')); hasMore := false |}
        ∧ loadMoreBookmarks isTauri w' = (Resolved tt, w')))
  ∧ (∀ c', c' ∈ requests (loadMoreBookmarks isTauri w').2 →
           c' ∈ requests w'
           ∨ c' = get_bookmarks (offset (feedMeta w')) (limit (feedMeta w')))
  ∧ (∀ (cfg : Config) (v : World Storage),
       let v' := (search_call (BE := core_backend cfg) true c v).2 in
       (length (bookmarks v') ≤ 100)%nat
       ∧ hasMore (feedMeta v') = false
       ∧ loadMoreBookmarks (BE := core_backend cfg) true v' = (Resolved tt, v'))
  ∧ (isTauri = false → (length (bookmarks w') ≤ 2)%nat).
Proof.
  intros w'. subst w'. split_and!.
  - destruct isTauri; [by rewrite search_call_tauri|].
    by destruct (search_call_mock c w) as (r & -> & _).
  - destruct isTauri.
    + rewrite search_call_tauri. unfold invoke.
      destruct (handle (search_command c) (backend w)) as [[r|e] b']; reflexivity.
    + destruct (search_call_mock c w) as (r & -> & _). simpl. by rewrite app_nil_r.
  - apply search_command_limit.
  - destruct isTauri.
    + rewrite search_call_tauri. unfold invoke.
      destruct (handle (search_command c) (backend w)) as [[r|e] b']; simpl.
      * right. split_and!; [by exists r|done|done].
      * left. split_and!; [done|by exists e|done|done].
    + destruct (search_call_mock c w) as (r & -> & Hsub). right.
      split_and!; [by apply sublist_subseteq|done|done].
  - intros c'. set (w' := (search_call isTauri c w).2).
    unfold loadMoreBookmarks, bind, get_world. cbn [fst snd].
    destruct (negb (hasMore (feedMeta w')) || isLoading w'); [by left|].
    rewrite loadBookmarks_requests. unfold load_offset, load_limit.
    cbn [opt_reset opt_offset opt_limit nullish default].
    intros [Hc|Hc]%elem_of_app; [by left|right].
    destruct isTauri; [|by apply elem_of_nil in Hc]. by apply list_elem_of_singleton in Hc.
  - intros cfg v v'. subst v'. rewrite search_call_tauri. cbn [snd].
    destruct (handle (Backend := core_backend cfg) (search_command c) (backend v))
      as [[r|e] st'] eqn:Hh.
    + cbn [fst]. split_and!; [|done|done]. cbn [bookmarks results_world].
      apply (core_search_reply cfg c (backend v)). by rewrite Hh.
    + exfalso. clear -Hh. by destruct c.
  - intros ->. destruct (search_call_mock c w) as (r & -> & Hsub).
    apply (sublist_length _ _ Hsub).
Qed.

(** C4, a counterexample to the wording "after any such call": a first page
    of two bookmarks is loaded and more remain; a search whose command fails
    (the storage is busy) leaves [hasMore] true, and [loadMoreBookmarks]
    then fetches the follow-up page of the feed. *)
Lemma failed_search_keeps_paging :
  let w0 := initial_world ([None; Some StorageBusy], sample_storage) in
  let go := run (BE := faulty_backend (BE := core_backend sample_config)) true in
  let w1 := go [SaveLimit (Some 2%Z); SearchBookmarks "async" None] w0 in
  hasMore (feedMeta w1) = true
  ∧ requests (go [LoadMoreBookmarks] w1)
    = [get_bookmarks 0 2; search_bookmarks (Some "async") None 100; get_bookmarks 2 2]
  ∧ length (bookmarks (go [LoadMoreBookmarks] w1)) = 3%nat.
Proof. vm_compute. done. Qed.

(** ** Loading the feed page by page *)

Section LoadFacts.
Context {B : Type} {BE : Backend B}.

(** The first page replaces the list. *)
Lemma loadBookmarks_first_page (w : World B) lim r b' :
  handle (get_bookmarks 0 lim) (backend w) = (Resolved r, b') →
  loadBookmarks true {| opt_offset := None; opt_limit := Some lim; opt_reset := true |} w
  = (Resolved tt,
     {| bookmarks := items r;
        feedMeta := {| offset := 0 + Z.of_nat (length (items r)); limit := lim;
                       total := resp_total r; hasMore := has_more r |};
        isLoading := false; previewCache := previewCache w;
        requests := requests w ++ [get_bookmarks 0 lim]; backend := b' |}).
Proof.
  intros Hh. unfold loadBookmarks, bind, get_world, finally, try_catch, invoke, when, modify.
  simpl. rewrite Hh. reflexivity.
Qed.

(** A later page is appended, once, and the offset advances by the number of
    items received. *)
Lemma loadBookmarks_next_page (w : World B) o lim r b' :
  o ≠ 0%Z →
  handle (get_bookmarks o lim) (backend w) = (Resolved r, b') →
  loadBookmarks true {| opt_offset := Some o; opt_limit := Some lim; opt_reset := false |} w
  = (Resolved tt,
     {| bookmarks := bookmarks w ++ items r;
        feedMeta := {| offset := o + Z.of_nat (length (items r)); limit := lim;
                       total := resp_total r; hasMore := has_more r |};
        isLoading := isLoading w; previewCache := previewCache w;
        requests := requests w ++ [get_bookmarks o lim]; backend := b' |}).
Proof.
  intros Ho Hh.
  unfold loadBookmarks, bind, get_world, finally, try_catch, invoke, when, modify.
  destruct o as [|p|p]; [done|..]; simpl; rewrite Hh; reflexivity.
Qed.
End LoadFacts.

(** ** The core: order of the feed and pages *)

(** The order of the feed compares any two bookmarks, and is transitive. *)
Lemma feed_order_total : Total feed_order.
Proof.
  intros a b. unfold feed_order.
  destruct (decide (tweeted_at a = tweeted_at b)) as [Heq|Hne].
  - destruct (base.total String.le (id a) (id b)); [left|right]; right; done.
  - destruct (base.total String.le (tweeted_at b) (tweeted_at a)); [left|right]; left; done.
Qed.

Lemma feed_order_trans : Transitive feed_order.
Proof.
  intros a b c [[Hab Hle1]|[Hab Hle1]] [[Hbc Hle2]|[Hbc Hle2]]; unfold feed_order.
  - left. split; [|by etrans]. intros Hac. rewrite Hac in Hle1.
    apply Hbc. by apply (anti_symm String.le).
  - left. rewrite <- Hbc. done.
  - left. rewrite Hab. done.
  - right. split; [congruence|by etrans].
Qed.

Lemma rank_order_total rank : Total (rank_order rank).
Proof.
  intros a b. unfold rank_order.
  destruct (lt_eq_lt_dec (rank a) (rank b)) as [[Hlt|Heq]|Hgt]; [by right; left| |by left; left].
  destruct (feed_order_total a b); [left|right]; right; done.
Qed.

Section CoreFacts.
Variable cfg : Config.

Lemma list_page_items (o lim : Z) st :
  items (get_bookmarks_command cfg o lim st)
  = take (bounded_limit cfg lim) (drop (Z.to_nat o) (merge_sort feed_order (rows st))).
Proof. reflexivity. Qed.

Lemma drop_length_take {A} (l : list A) n : drop (length (take n l)) l = drop n l.
Proof.
  rewrite length_take. destruct (decide (n ≤ length l)%nat).
  - by rewrite Nat.min_l.
  - rewrite Nat.min_r by lia. rewrite drop_all. symmetry. apply drop_ge. lia.
Qed.

(** The pages fetched one after the other make up the front of the feed. *)
Lemma fetch_pages_concat n (o lim : Z) st :
  (0 ≤ o)%Z →
  concat (fetch_pages cfg n o lim st)
  = take (n * bounded_limit cfg lim)
      (drop (Z.to_nat o) (merge_sort feed_order (rows st))).
Proof.
  revert o. induction n as [|n IH]; intros o Ho; [done|].
  cbn [fetch_pages concat]. rewrite IH by lia. rewrite list_page_items.
  set (feed := merge_sort feed_order (rows st)).
  set (L := bounded_limit cfg lim).
  rewrite Z2Nat.inj_add, Nat2Z.id by lia.
  rewrite <- drop_drop, drop_length_take.
  by rewrite take_take_drop.
Qed.

Lemma feed_permutation st : merge_sort feed_order (rows st) ≡ₚ rows st.
Proof. apply merge_sort_Permutation. Qed.

Lemma feed_sorted st : StronglySorted feed_order (merge_sort feed_order (rows st)).
Proof.
  apply StronglySorted_merge_sort; [apply feed_order_trans|apply feed_order_total].
Qed.

Lemma feed_loaded_first lim (w : World Storage) :
  feed_loaded cfg lim (backend w) 1
    (saveLimit (BE := core_backend cfg) true (Some lim) w).2.
Proof.
  unfold saveLimit, bind, modify. cbv beta iota.
  erewrite (loadBookmarks_first_page (BE := core_backend cfg)); [|reflexivity].
  simpl. unfold feed_loaded. simpl. unfold list_page.
  change (Z.to_nat 0) with 0%nat. rewrite Nat.add_0_r, drop_0. done.
Qed.

Lemma feed_loaded_next lim st k (w : World Storage) :
  (0 < bounded_limit cfg lim)%nat →
  feed_loaded cfg lim st (S k) w →
  feed_loaded cfg lim st (S (S k)) (loadMoreBookmarks (BE := core_backend cfg) true w).2.
Proof.
  intros HL (Hst & Hb & Hm & Hl).
  assert (length (merge_sort feed_order (rows st)) = length (rows st)) as Hlen
    by (by rewrite (feed_permutation st)).
  set (feed := merge_sort feed_order (rows st)) in *.
  set (L := bounded_limit cfg lim) in *.
  unfold loadMoreBookmarks, bind, get_world. rewrite Hm, Hl. cbn [hasMore orb negb].
  case_bool_decide as Hmore; cbn [negb orb].
  - (* more remain: the next page is fetched and appended *)
    assert (length (bookmarks w) = S k * L)%nat as Hk.
    { rewrite Hb, length_take in *. lia. }
    cbn [offset limit].
    erewrite (loadBookmarks_next_page (BE := core_backend cfg)); [|lia|reflexivity].
    unfold feed_loaded. cbn [backend bookmarks feedMeta isLoading snd]. rewrite Hst.
    cbn [core_backend handle items resp_total has_more get_bookmarks_command].
    rewrite Nat2Z.id. fold feed. fold L.
    assert ((bookmarks w ++ list_page (length (bookmarks w)) L st)%list
            = take (S (S k) * L) feed) as Happ.
    { unfold list_page. fold feed. rewrite Hk, Hb, take_take_drop. f_equal. lia. }
    unfold list_page in *. fold feed in Happ |- *. rewrite Happ.
    split_and!; [done|done| |done].
    f_equal.
    + rewrite <- Happ, length_app. lia.
    + rewrite <- Happ, length_app. apply bool_decide_ext. lia.
  - (* nothing remains: the call does nothing *)
    simpl. unfold feed_loaded. fold feed. fold L.
    assert (length feed ≤ S k * L)%nat as Hall.
    { rewrite Hb, length_take in Hmore. lia. }
    split_and!; [done| | |done].
    + rewrite Hb, !take_ge; [done|lia..].
    + rewrite Hm. f_equal. symmetry. by apply bool_decide_eq_false.
Qed.

Lemma feed_loaded_run lim st n k (w : World Storage) :
  (0 < bounded_limit cfg lim)%nat →
  feed_loaded cfg lim st (S k) w →
  feed_loaded cfg lim st (S (n + k))
    (run (BE := core_backend cfg) true (replicate n LoadMoreBookmarks) w).
Proof.
  intros HL. revert k w. induction n as [|n IH]; intros k w Hw; [done|].
  simpl. replace (S (S (n + k))) with (S (n + S k)) by lia.
  apply IH. by apply feed_loaded_next.
Qed.
End CoreFacts.

(** C5.  For a fixed storage and a limit the command surface bounds to a
    positive page size, the pages of [get_bookmarks] fetched one after the
    other, each from the offset reached so far, concatenate to the feed: a
    permutation of the stored rows (every bookmark exactly once) in feed
    order, [tweeted_at] descending and ties by [id] ascending.  The frontend
    builds that list: a first load followed by enough calls of
    [loadMoreBookmarks] leaves exactly the feed in the bookmark list, with
    [hasMore] false; each later page is requested once, appended to the list,
    and moves the feed offset by the number of items received. *)
Theorem pagination_coverage (cfg : Config) (st : Storage) (lim : Z) (n : nat) :
  (0 < bounded_limit cfg lim)%nat →
  (length (rows st) ≤ S n * bounded_limit cfg lim)%nat →
  let feed := merge_sort feed_order (rows st) in
  let w := run (BE := core_backend cfg) true
             (SaveLimit (Some lim) :: replicate n LoadMoreBookmarks) (initial_world st) in
  concat (fetch_pages cfg (S n) 0 lim st) = feed
  ∧ feed ≡ₚ rows st
  ∧ StronglySorted feed_order feed
  ∧ bookmarks w = feed
  ∧ hasMore (feedMeta w) = false
  ∧ offset (feedMeta w) = Z.of_nat (length (rows st))
  ∧ (∀ (w0 : World Storage) (o : Z), o ≠ 0%Z →
       let page := items (get_bookmarks_command cfg o lim (backend w0)) in
       let w1 := (loadBookmarks (BE := core_backend cfg) true
                    {| opt_offset := Some o; opt_limit := Some lim; opt_reset := false |}
                    w0).2 in
       bookmarks w1 = (bookmarks w0 ++ page)%list
       ∧ offset (feedMeta w1) = (o + Z.of_nat (length page))%Z
       ∧ requests w1 = (requests w0 ++ [get_bookmarks o lim])%list).
Proof.
  intros HL Hn feed w.
  assert (length feed = length (rows st)) as Hlen
    by (unfold feed; by rewrite (feed_permutation st)).
  assert (feed_loaded cfg lim st (S (n + 0)) w) as (Hst & Hb & Hm & Hl).
  { unfold w. cbn [run foldl step]. apply feed_loaded_run; [done|].
    apply (feed_loaded_first cfg lim (initial_world st)). }
  rewrite Nat.add_0_r in Hb. fold feed in Hb.
  assert (bookmarks w = feed) as Hfeed by (rewrite Hb; apply take_ge; lia).
  split_and!.
  - rewrite fetch_pages_concat by lia. change (Z.to_nat 0) with 0%nat.
    rewrite drop_0. apply take_ge. fold feed. lia.
  - apply feed_permutation.
  - apply feed_sorted.
  - exact Hfeed.
  - rewrite Hm. cbn [hasMore]. apply bool_decide_eq_false. rewrite Hfeed. lia.
  - rewrite Hm. cbn [offset]. by rewrite Hfeed, Hlen.
  - intros w0 o Ho page w1. subst w1.
    erewrite (loadBookmarks_next_page (BE := core_backend cfg)); [|done|reflexivity].
    done.
Qed.

(** C5 on the sample storage, three rows in pages of two. *)
Lemma pagination_coverage_witness :
  let feed := merge_sort feed_order (rows sample_storage) in
  (0 < bounded_limit sample_config 2)%nat
  ∧ (length (rows sample_storage) ≤ 2 * bounded_limit sample_config 2)%nat
  ∧ concat (fetch_pages sample_config 2 0 2 sample_storage) = feed
  ∧ id <$> feed = ["1"; "2"; "0"]
  ∧ bookmarks (run (BE := core_backend sample_config) true
                 [SaveLimit (Some 2%Z); LoadMoreBookmarks] (initial_world sample_storage)) = feed.
Proof.
  intros feed.
  assert (0 < bounded_limit sample_config 2)%nat as HL by (vm_compute; lia).
  assert (length (rows sample_storage) ≤ 2 * bounded_limit sample_config 2)%nat as Hn
    by (vm_compute; lia).
  destruct (pagination_coverage sample_config sample_storage 2 1 HL Hn)
    as (Hpages & _ & _ & Hlist & _).
  split; [exact HL|]. split; [exact Hn|]. split; [exact Hpages|].
  split; [vm_compute; reflexivity|exact Hlist].
Defined.

(** ** The core: filters and limits *)

Lemma run_query_passes cfg f l st b :
  b ∈ run_query cfg f l st → passes cfg f b ∧ b ∈ rows st.
Proof.
  unfold run_query. intros Hb%subseteq_take.
  assert (b ∈ filter (passes cfg f) (rows st)) as Hf.
  { destruct (text f); by rewrite merge_sort_Permutation in Hb. }
  by apply list_elem_of_filter in Hf.
Qed.

Lemma searchWithFilters_core cfg filters (w : World Storage) :
  bookmarks (searchWithFilters (BE := core_backend cfg) true filters w).2
  = search_with_filters_command cfg
      {| arg_query := truthy_opt (f_query filters);
         arg_tag := truthy_opt (f_tag filters);
         arg_author := truthy_opt (f_author filters);
         arg_fromDate := truthy_opt (f_fromDate filters);
         arg_toDate := truthy_opt (f_toDate filters);
         arg_favoritesOnly := nullish (f_favoritesOnly filters) false;
         arg_hasMedia := f_hasMedia filters;
         arg_limit := 100 |} (backend w).
Proof.
  change (searchWithFilters true filters w)
    with (search_call (BE := core_backend cfg) true (ByFilters filters) w).
  by rewrite search_call_tauri.
Qed.

(** C3.  Every bookmark that [search_with_filters] returns is a stored row
    that satisfies all the filters given, at once: the text query, the tag,
    the author, both ends of the date range, favorites only and media
    presence; and so does every bookmark the frontend shows after
    [searchWithFilters], where an empty string counts as a filter not
    given. *)
Theorem search_with_filters_conjunction (cfg : Config) :
  (∀ (args : FilterArgs) (st : Storage) (b : Bookmark),
     b ∈ search_with_filters_command cfg args st →
     b ∈ rows st
     ∧ holds_if (arg_query args) (λ q, fts_match cfg q b = true)
     ∧ holds_if (arg_tag args) (λ t, t ∈ tags b)
     ∧ holds_if (arg_author args) (λ a, author_handle b = a)
     ∧ holds_if (arg_fromDate args) (λ d, String.le d (tweeted_at b))
     ∧ holds_if (arg_toDate args) (λ d, String.le (tweeted_at b) d)
     ∧ (arg_favoritesOnly args = true → is_favorite b = true)
     ∧ holds_if (arg_hasMedia args) (λ h, bool_decide (media b ≠ []) = h))
  ∧ (∀ (filters : Filters) (w : World Storage) (b : Bookmark),
       b ∈ bookmarks (searchWithFilters (BE := core_backend cfg) true filters w).2 →
       b ∈ rows (backend w)
       ∧ holds_if (truthy_opt (f_query filters)) (λ q, fts_match cfg q b = true)
       ∧ holds_if (truthy_opt (f_tag filters)) (λ t, t ∈ tags b)
       ∧ holds_if (truthy_opt (f_author filters)) (λ a, author_handle b = a)
       ∧ holds_if (truthy_opt (f_fromDate filters)) (λ d, String.le d (tweeted_at b))
       ∧ holds_if (truthy_opt (f_toDate filters)) (λ d, String.le (tweeted_at b) d)
       ∧ (f_favoritesOnly filters = Some true → is_favorite b = true)
       ∧ holds_if (f_hasMedia filters) (λ h, bool_decide (media b ≠ []) = h)).
Proof.
  assert (∀ args st b, b ∈ search_with_filters_command cfg args st →
            b ∈ rows st ∧ passes cfg (filter_spec_of args) b) as Hcmd.
  { intros args st b Hb. apply run_query_passes in Hb. tauto. }
  split.
  - intros args st b Hb. destruct (Hcmd _ _ _ Hb) as [Hrow Hpass].
    split; [done|]. exact Hpass.
  - intros filters w b Hb. rewrite searchWithFilters_core in Hb.
    destruct (Hcmd _ _ _ Hb) as [Hrow (Hq & Ht & Ha & Hf & Hto & Hfav & Hm)].
    cbn in Hq, Ht, Ha, Hf, Hto, Hfav, Hm.
    split_and!; try done.
    intros Hs. apply Hfav. by rewrite Hs.
Qed.

(** C3 on the sample storage: tag "rust" and favorites only. *)
Lemma search_with_filters_conjunction_witness :
  let filters := {| f_query := Some ""; f_tag := Some "rust"; f_author := None;
                    f_fromDate := None; f_toDate := None;
                    f_favoritesOnly := Some true; f_hasMedia := None |} in
  let shown := bookmarks (searchWithFilters (BE := core_backend sample_config) true filters
                            (initial_world sample_storage)).2 in
  let b := sample_row "1" "https://x.com/a/status/2" "async traits"
             "2024-05-01T14:30:00Z" true ["rust"; "async"] in
  shown = [b] ∧ b ∈ shown ∧ "rust" ∈ tags b ∧ is_favorite b = true.
Proof.
  intros filters shown b.
  assert (shown = [b]) as Hshown by (vm_compute; reflexivity).
  assert (b ∈ shown) as Hb by (rewrite Hshown; apply list_elem_of_singleton; reflexivity).
  destruct (proj2 (search_with_filters_conjunction sample_config) filters
              (initial_world sample_storage) b Hb) as (_ & _ & Ht & _ & _ & _ & Hfav & _).
  split; [exact Hshown|]. split; [exact Hb|]. split; [exact Ht|].
  apply Hfav. reflexivity.
Defined.

(** ** The core: importing a file *)

Lemma stored_urls_insert now b st :
  stored_urls (insert_row now b st) = (stored_urls st ++ [tweet_url b])%list.
Proof. unfold stored_urls, insert_row. simpl. by rewrite fmap_app. Qed.

Lemma rows_split parsed :
  length parsed = (length (valid_rows parsed) + length (row_errors parsed))%nat.
Proof.
  induction parsed as [|[e|b] parsed IH]; [done|..];
    unfold valid_rows, row_errors in *; cbn in *; lia.
Qed.

(** One row: what is stored stays, the row's url is stored afterwards, and
    no url comes to be stored twice. *)
Lemma ingest_row_stored now rep st r :
  let st' := (ingest_row now (rep, st) r).2 in
  stored_urls st ⊆ stored_urls st'
  ∧ (∀ b, r = inr b → tweet_url b ∈ stored_urls st')
  ∧ (NoDup (stored_urls st) → NoDup (stored_urls st')).
Proof.
  destruct r as [e|b]; simpl.
  - split_and!; [done|by intros ? [=]|done].
  - case_decide as Hin; simpl.
    + split_and!; [done|by intros ? [= <-]|done].
    + rewrite stored_urls_insert. split_and!.
      * intros u Hu. apply elem_of_app. by left.
      * intros ? [= <-]. apply elem_of_app. right. by apply list_elem_of_singleton.
      * intros Hnd. apply NoDup_app. split_and!; [done| |apply NoDup_singleton].
        intros u Hu ->%list_elem_of_singleton. done.
Qed.

Lemma ingest_stored now parsed rep st :
  let st' := (foldl (ingest_row now) (rep, st) parsed).2 in
  stored_urls st ⊆ stored_urls st'
  ∧ (∀ b, b ∈ valid_rows parsed → tweet_url b ∈ stored_urls st')
  ∧ (NoDup (stored_urls st) → NoDup (stored_urls st')).
Proof.
  revert rep st. induction parsed as [|r parsed IH]; intros rep st.
  - simpl. split_and!; [done|by intros b ?%elem_of_nil|done].
  - cbn [foldl].
    destruct (ingest_row now (rep, st) r) as [rep1 st1] eqn:Hrow.
    pose proof (ingest_row_stored now rep st r) as (Hsub & Hnew & Hnd).
    rewrite Hrow in Hsub, Hnew, Hnd. cbn [snd] in Hsub, Hnew, Hnd.
    destruct (IH rep1 st1) as (Hsub' & Hnew' & Hnd'). split_and!.
    + by etrans.
    + intros b Hb. destruct r as [e|b']; unfold valid_rows in Hb; simpl in Hb.
      * by apply Hnew'.
      * apply elem_of_cons in Hb as [->|Hb]; [|by apply Hnew'].
        apply Hsub'. by apply Hnew.
    + tauto.
Qed.

(** A file all of whose records are stored already: nothing is written, each
    record is skipped and each row error is reported. *)
Lemma ingest_known now parsed rep st :
  (∀ b, b ∈ valid_rows parsed → tweet_url b ∈ stored_urls st) →
  foldl (ingest_row now) (rep, st) parsed
  = ({| total_rows := total_rows rep + length parsed;
        rows_imported := rows_imported rep;
        rows_skipped_duplicate := rows_skipped_duplicate rep + length (valid_rows parsed);
        rows_rejected := rows_rejected rep ++ row_errors parsed |}, st).
Proof.
  revert rep. induction parsed as [|r parsed IH]; intros rep Hknown.
  - simpl. rewrite !Nat.add_0_r, app_nil_r. by destruct rep.
  - cbn [foldl]. destruct r as [e|b].
    + simpl. rewrite IH.
      * simpl. f_equal. unfold valid_rows, row_errors. simpl.
        rewrite <- app_assoc. f_equal; lia.
      * intros b Hb. apply Hknown. unfold valid_rows in *. by simpl.
    + simpl. rewrite decide_True.
      * rewrite IH.
        -- simpl. f_equal. unfold valid_rows, row_errors. simpl. f_equal; lia.
        -- intros b' Hb. apply Hknown. unfold valid_rows in *. simpl.
           apply elem_of_cons. by right.
      * apply Hknown. unfold valid_rows. simpl. apply elem_of_cons. by left.
Qed.

(** C1, as the model has it.  Importing a file a second time commits no
    row: the storage is as the first import left it, [rows_imported] is 0,
    every record of the file is skipped as a duplicate and every malformed
    row is reported again, so that [rows_skipped_duplicate] and the number of
    rejected rows add up to [total_rows]; for a file with no malformed row,
    [rows_skipped_duplicate] is [total_rows].  No [tweet_url] comes to be
    stored twice. *)
Theorem reimport_is_idempotent (cfg : Config) (now1 now2 path : string)
    (dry_run : bool) (st : Storage) (parsed : list (RowError + Bookmark)) :
  parse cfg path = Resolved parsed →
  ∃ rep1 rep2 st1,
    import_file cfg false now1 path st = (Resolved rep1, st1)
    ∧ import_file cfg dry_run now2 path st1 = (Resolved rep2, st1)
    ∧ rows_imported rep2 = 0%nat
    ∧ rows_skipped_duplicate rep2 = length (valid_rows parsed)
    ∧ rows_rejected rep2 = row_errors parsed
    ∧ total_rows rep2 = length parsed
    ∧ total_rows rep2 = (rows_skipped_duplicate rep2 + length (rows_rejected rep2))%nat
    ∧ (row_errors parsed = [] → rows_skipped_duplicate rep2 = total_rows rep2)
    ∧ (NoDup (stored_urls st) → NoDup (stored_urls st1)).
Proof.
  intros Hparse.
  pose proof (ingest_stored now1 parsed empty_report st) as (_ & Hknown & Hnd).
  destruct (foldl (ingest_row now1) (empty_report, st) parsed) as [rep1 st1] eqn:Hfold.
  cbn [snd] in Hknown, Hnd.
  pose proof (ingest_known now2 parsed empty_report st1 Hknown) as Hsecond.
  eexists rep1, _, st1. unfold import_file, ingest. rewrite Hparse, Hfold, Hsecond.
  split; [reflexivity|]. split; [by destruct dry_run|].
  cbn [rows_imported rows_skipped_duplicate rows_rejected total_rows empty_report].
  pose proof (rows_split parsed) as Hsplit.
  split_and!; [done|done|done|done|simpl; lia| |done].
  intros Hnone. rewrite Hnone in Hsplit. simpl in *. lia.
Qed.

(** C1 on the sample file, imported twice into the sample storage. *)
Lemma reimport_is_idempotent_witness :
  parse sample_config "bookmarks.csv" = Resolved sample_file
  ∧ ∃ rep1 rep2 st1,
      import_file sample_config false "2024-06-01T00:00:00Z" "bookmarks.csv" sample_storage
      = (Resolved rep1, st1)
      ∧ import_file sample_config false "2024-06-02T00:00:00Z" "bookmarks.csv" st1
        = (Resolved rep2, st1)
      ∧ rows_imported rep1 = 2%nat
      ∧ rows_imported rep2 = 0%nat
      ∧ total_rows rep2 = (rows_skipped_duplicate rep2 + length (rows_rejected rep2))%nat.
Proof.
  assert (parse sample_config "bookmarks.csv" = Resolved sample_file) as Hparse
    by reflexivity.
  split; [exact Hparse|].
  destruct (reimport_is_idempotent sample_config "2024-06-01T00:00:00Z"
              "2024-06-02T00:00:00Z" "bookmarks.csv" false sample_storage sample_file
              Hparse) as (rep1 & rep2 & st1 & H1 & H2 & Himp & _ & _ & _ & Hsum & _).
  exists rep1, rep2, st1. split; [exact H1|]. split; [exact H2|].
  split; [|split; [exact Himp|exact Hsum]].
  vm_compute in H1. by injection H1 as <- _.
Defined.

(** C1, a counterexample to the wording "for every input file": the
    three-row file whose second row has an unparsable date is imported
    twice; the second import commits nothing and skips the two records, and
    that is not all of the three rows it has seen. *)
Lemma reimport_with_malformed_row :
  let st1 := (import_file sample_config false "2024-06-01T00:00:00Z" "bookmarks.csv"
                sample_storage).2 in
  ∃ rep2,
    import_file sample_config false "2024-06-02T00:00:00Z" "bookmarks.csv" st1
    = (Resolved rep2, st1)
    ∧ rows_imported rep2 = 0%nat
    ∧ rows_skipped_duplicate rep2 = 2%nat
    ∧ total_rows rep2 = 3%nat
    ∧ (rows_skipped_duplicate rep2 <? total_rows rep2)%nat = true.
Proof. vm_compute. eexists. split; [reflexivity|]. done. Qed.

(** * More properties of the frontend *)

(** ** The loading flag and the offset of the feed over a session *)

Section StepFacts.
Context {B : Type} {BE : Backend B}.
Variable isTauri : bool.

Lemma loadBookmarks_resolves options (w : World B) :
  (loadBookmarks isTauri options w).1 = Resolved tt.
Proof.
  destruct isTauri; [by rewrite loadBookmarks_tauri|by rewrite loadBookmarks_mock].
Qed.

Lemma loadBookmarks_isLoading options (w : World B) :
  isLoading w = false → isLoading (loadBookmarks isTauri options w).2 = false.
Proof.
  intros Hw. destruct isTauri.
  - rewrite loadBookmarks_tauri. cbn zeta. cbn [snd].
    destruct (handle _ _) as [[r|e] b']; cbn [isLoading]; by case_match.
  - rewrite loadBookmarks_mock. cbn [snd isLoading]. by case_match.
Qed.

Lemma loadBookmarks_reset options (w : World B) :
  opt_reset options = true →
  let w' := (loadBookmarks isTauri options w).2 in
  limit (feedMeta w') = load_limit options w ∧ isLoading w' = false.
Proof.
  intros Hr. assert (load_offset options w = 0%Z) as Ho by (unfold load_offset; by rewrite Hr).
  destruct isTauri.
  - rewrite loadBookmarks_tauri. cbn zeta. rewrite Ho, Hr. cbn [snd].
    by destruct (handle (get_bookmarks _ _) _) as [[r|e] b'].
  - rewrite loadBookmarks_mock. cbn zeta. by rewrite Ho.
Qed.

Lemma preview_task_frame u (w : World B) :
  let w' := (preview_task isTauri u w).2 in
  bookmarks w' = bookmarks w ∧ feedMeta w' = feedMeta w ∧ isLoading w' = isLoading w.
Proof.
  unfold preview_task, try_catch, invoke. destruct isTauri; [|done].
  destruct (handle (fetch_link_preview u) (backend w)) as [[v|e] b']; done.
Qed.

Lemma fetchLinkPreview_frame u (w : World B) :
  let w' := (fetchLinkPreview isTauri u w).2 in
  bookmarks w' = bookmarks w ∧ feedMeta w' = feedMeta w ∧ isLoading w' = isLoading w.
Proof.
  unfold fetchLinkPreview. destruct (previewCache w !! u); [done|].
  pose proof (preview_task_frame u w) as H.
  destruct (preview_task isTauri u w) as [o w1]. exact H.
Qed.

Lemma search_call_isLoading c (w : World B) :
  isLoading (search_call isTauri c w).2 = false.
Proof.
  destruct isTauri.
  - rewrite search_call_tauri. cbn [snd]. by case_match.
  - by destruct (search_call_mock c w) as (r & -> & _).
Qed.

Lemma toggleFavorite_feed i (w : World B) :
  let w' := (toggleFavorite isTauri i w).2 in
  feedMeta w' = feedMeta w ∧ isLoading w' = isLoading w
  ∧ length (bookmarks w') = length (bookmarks w).
Proof.
  unfold toggleFavorite, findIndex, bind, invoke, get_world. destruct isTauri.
  - destruct (handle (toggle_favorite i) (backend w)) as [[s|e] b']; [|done]. cbn.
    destruct (list_find _ (bookmarks w)) as [[idx b]|]; cbn; [|done].
    by rewrite length_alter.
  - cbn. destruct (list_find _ (bookmarks w)) as [[idx b]|]; cbn; [|done].
    by rewrite length_alter.
Qed.

Lemma deleteBookmark_feed i (w : World B) :
  let w' := (deleteBookmark isTauri i w).2 in
  feedMeta w' = feedMeta w ∧ isLoading w' = isLoading w.
Proof.
  unfold deleteBookmark, bind, invoke, modify. destruct isTauri; [|done].
  destruct (handle (delete_bookmark i) (backend w)) as [[[]|e] b']; split; reflexivity.
Qed.

Lemma step_isLoading (w : World B) a :
  isLoading w = false → isLoading (step isTauri w a) = false.
Proof.
  intros Hw. destruct a as [options| |query tag| |filters|i|i|url0|l]; cbn [step].
  - by apply loadBookmarks_isLoading.
  - unfold loadMoreBookmarks, bind, get_world. cbn.
    destruct (negb _ || _); [done|]. by apply loadBookmarks_isLoading.
  - apply (search_call_isLoading (BySearch query tag)).
  - apply (search_call_isLoading ByFavorites).
  - apply (search_call_isLoading (ByFilters filters)).
  - destruct (toggleFavorite_feed i w) as (_ & -> & _). done.
  - destruct (deleteBookmark_feed i w) as (_ & ->). done.
  - destruct (fetchLinkPreview_frame url0 w) as (_ & _ & ->). done.
  - unfold saveLimit, bind, modify. by apply loadBookmarks_isLoading.
Qed.

Lemma run_isLoading actions (w : World B) :
  isLoading w = false → isLoading (run isTauri actions w) = false.
Proof.
  revert w. induction actions as [|a actions IH]; intros w Hw; [done|].
  cbn. apply IH. by apply step_isLoading.
Qed.
End StepFacts.

Section OffsetFacts.
Context {B : Type} {BE : Backend B}.
Variable isTauri : bool.

Lemma loadBookmarks_offset options (w : World B) :
  opt_reset options = true
  ∨ load_offset options w = offset (feedMeta w) ∧ offset_counts w →
  offset_counts (loadBookmarks isTauri options w).2.
Proof.
  unfold offset_counts. intros Hoff.
  assert (opt_reset options = true → load_offset options w = 0%Z)
    as Hr by (unfold load_offset; by intros ->).
  destruct isTauri.
  - rewrite loadBookmarks_tauri. cbn zeta. cbn [snd].
    destruct (handle _ _) as [[r|e] b']; cbn [feedMeta bookmarks offset].
    + destruct (Z.eqb_spec (load_offset options w) 0) as [Hz|Hz].
      * by rewrite Hz.
      * rewrite length_app, Nat2Z.inj_add.
        destruct Hoff as [Hreset|[-> ->]]; [|done]. by specialize (Hr Hreset).
    + destruct Hoff as [Hreset|[Hoff Hw]].
      * rewrite Hreset, (Hr Hreset). done.
      * destruct (Z.eqb_spec (load_offset options w) 0) as [Hz|Hz].
        -- destruct (opt_reset options); [done|]. cbn. rewrite <- Hoff. exact Hz.
        -- destruct (opt_reset options) eqn:Hreset; [|done]. by specialize (Hr eq_refl).
  - rewrite loadBookmarks_mock. cbn [snd feedMeta bookmarks offset].
    destruct (Z.eqb_spec (load_offset options w) 0) as [Hz|Hz].
    + by rewrite Hz.
    + rewrite length_app, Nat2Z.inj_add.
      destruct Hoff as [Hreset|[-> ->]]; [|done]. by specialize (Hr Hreset).
Qed.

Lemma saveLimit_unfold l (w : World B) :
  saveLimit isTauri l w
  = loadBookmarks isTauri {| opt_offset := None; opt_limit := l; opt_reset := true |}
      (feedMeta_reset (nullish l 50%Z) w).
Proof. reflexivity. Qed.



End OffsetFacts.

(** X1.  [loadBookmarks] swallows a failure of [get_bookmarks]: the call
    resolves, with the one request in the trace.  When the page asked for
    was the first one (offset 0) the list is emptied and the loading flag
    cleared, so that the page shows what it shows for an empty library;
    when it was a later page, the list and the loading flag are as they
    were.  The feed metadata is as before the request: reset for
    [reset: true], untouched otherwise. *)
Theorem loadBookmarks_failure {B} {BE : Backend B} (options : LoadOptions)
    (w : World B) (e : Error) (b' : B) :
  let lim := load_limit options w in
  let off := load_offset options w in
  handle (get_bookmarks off lim) (backend w) = (Rejected e, b') →
  let w' := (loadBookmarks true options w).2 in
  (loadBookmarks true options w).1 = Resolved tt
  ∧ requests w' = (requests w ++ [get_bookmarks off lim])%list
  ∧ backend w' = b'
  ∧ feedMeta w' = (if opt_reset options
                   then {| offset := 0; limit := lim; total := 0; hasMore := true |}
                   else feedMeta w)
  ∧ (off = 0%Z → bookmarks w' = [] ∧ isLoading w' = false ∧ feed_view w' = NoBookmarks)
  ∧ (off ≠ 0%Z → bookmarks w' = bookmarks w ∧ isLoading w' = isLoading w).
Proof.
  intros lim off Hh w'. subst w'. rewrite loadBookmarks_tauri. fold lim off.
  cbn zeta. rewrite Hh. cbn [fst snd bookmarks feedMeta isLoading requests backend].
  split_and!; [done..| |].
  - intros ->. done.
  - intros Hne. by destruct (Z.eqb_spec off 0).
Qed.

Lemma loadBookmarks_failure_witness :
  let w := initial_world ([Some StorageBusy], sample_storage) in
  handle (Backend := faulty_backend (BE := core_backend sample_config))
    (get_bookmarks (load_offset reset_options w) (load_limit reset_options w)) (backend w)
  = (Rejected StorageBusy, ([], sample_storage))
  ∧ (loadBookmarks (BE := faulty_backend (BE := core_backend sample_config))
       true reset_options w).1 = Resolved tt.
Proof.
  intros w. split; [reflexivity|].
  apply (loadBookmarks_failure (BE := faulty_backend (BE := core_backend sample_config))
           reset_options w StorageBusy ([], sample_storage)).
  reflexivity.
Defined.

(** X2.  Whatever calls of the API layer have been made since the module
    was loaded, with or without the backend and whether its commands failed
    or not, the loading flag is off once the last call is done. *)
Theorem loading_flag_cleared {B} {BE : Backend B} (isTauri : bool)
    (actions : list Action) (b : B) :
  isLoading (run isTauri actions (initial_world b)) = false.
Proof. by apply run_isLoading. Qed.



(** ** The development mode *)

Section MockFacts.
Context {B : Type} {BE : Backend B}.

Lemma step_mock_local (w : World B) a :
  requests (step false w a) = requests w ∧ backend (step false w a) = backend w.
Proof.
  destruct a as [options| |query tag| |filters|i|i|url0|l]; cbn [step].
  - by rewrite loadBookmarks_mock.
  - unfold loadMoreBookmarks, bind, get_world. cbn [fst snd].
    destruct (negb _ || _); [done|]. by rewrite loadBookmarks_mock.
  - destruct (search_call_mock (BySearch query tag) w) as (r & Hr & _). cbn [search_call] in Hr.
    by rewrite Hr.
  - destruct (search_call_mock ByFavorites w) as (r & Hr & _). cbn [search_call] in Hr.
    by rewrite Hr.
  - destruct (search_call_mock (ByFilters filters) w) as (r & Hr & _). cbn [search_call] in Hr.
    by rewrite Hr.
  - unfold toggleFavorite, findIndex, bind, get_world. cbn.
    by destruct (list_find _ (bookmarks w)) as [[idx b]|].
  - done.
  - unfold fetchLinkPreview. by destruct (previewCache w !! url0).
  - by rewrite saveLimit_unfold, loadBookmarks_mock.
Qed.

Lemma step_cache_null (w : World B) a : cache_null w → cache_null (step false w a).
Proof.
  intros Hs. destruct a as [options| |query tag| |filters|i|i|url0|l]; cbn [step];
    try (match goal with
         | |- cache_null (?m w).2 =>
             let K := fresh in
             assert (keeps_previews m) as K by api_keeps;
             intros u p; destruct (K w) as [-> _]; apply Hs
         end).
  destruct (previewCache w !! url0) as [q|] eqn:Hq.
  - by rewrite (fetchLinkPreview_hit _ _ _ _ Hq).
  - rewrite (fetchLinkPreview_miss _ _ _ Hq). intros u p. cbn.
    destruct (decide (url0 = u)) as [->|Hne].
    + rewrite lookup_insert_eq. by intros [= <-].
    + rewrite lookup_insert_ne by done. apply Hs.
Qed.
End MockFacts.

Lemma run_cons {B} {BE : Backend B} isTauri a actions (w : World B) :
  run isTauri (a :: actions) w = run isTauri actions (step isTauri w a).
Proof. reflexivity. Qed.

(** X4.  Without the backend (the development mode of the API layer) no
    call sends a command or touches the backend, and every link preview is
    [null]: all that is shown comes from the mock data. *)
Theorem mock_mode_is_local {B} {BE : Backend B} (actions : list Action) (w : World B) :
  requests (run false actions w) = requests w
  ∧ backend (run false actions w) = backend w
  ∧ ((∀ u p, previewCache w !! u = Some p → settled p = Resolved None) →
     ∀ u p, previewCache (run false actions w) !! u = Some p → settled p = Resolved None).
Proof.
  revert w. induction actions as [|a actions IH]; intros w; [done|].
  rewrite !run_cons. destruct (IH (step false w a)) as (-> & -> & Hc).
  destruct (step_mock_local w a) as [-> ->]. split_and!; [done..|].
  intros Hw. apply Hc. by apply step_cache_null.
Qed.

(** ** Deleting, saving the limit, counting the commands *)

Lemma remove_absent (i : string) (l : list Bookmark) :
  i ∉ id <$> l → filter (λ b, id b ≠ i) l = l.
Proof.
  induction l as [|x l IH]; [done|]. rewrite fmap_cons, not_elem_of_cons.
  intros [Hx Hl]. rewrite filter_cons_True by done. f_equal. by apply IH.
Qed.

Lemma remove_present (i : string) (l : list Bookmark) :
  NoDup (id <$> l) → i ∈ id <$> l → length l = S (length (filter (λ b, id b ≠ i) l)).
Proof.
  induction l as [|x l IH]; [by intros _ ?%elem_of_nil|].
  rewrite fmap_cons, NoDup_cons, elem_of_cons. intros [Hx Hnd] Hin.
  destruct (decide (id x = i)) as [Hid|Hid].
  - rewrite filter_cons_False by (intros H; by apply H).
    rewrite remove_absent; [done|]. by rewrite <- Hid.
  - rewrite filter_cons_True by done. cbn. f_equal. apply IH; [done|].
    destruct Hin as [Hin|Hin]; [by subst|done].
Qed.

(** X5.  [deleteBookmark] asks the backend first.  When the command fails
    the call is rejected with that error and the list is as before.  When it
    succeeds (or without the backend) every bookmark of that id leaves the
    list and the others stay, in their order.  The feed metadata is never
    adjusted: after a bookmark of the list has been deleted the list is one
    shorter while the offset of the feed is as before. *)
Theorem deleteBookmark_spec {B} {BE : Backend B} (isTauri : bool) (i : string)
    (w : World B) :
  let w' := (deleteBookmark isTauri i w).2 in
  let reply := (handle (delete_bookmark i) (backend w)).1 in
  feedMeta w' = feedMeta w
  ∧ requests w' = (requests w ++ if isTauri then [delete_bookmark i] else [])%list
  ∧ (∀ e, isTauri = true → reply = Rejected e →
          (deleteBookmark isTauri i w).1 = Rejected e ∧ bookmarks w' = bookmarks w)
  ∧ (isTauri = false ∨ reply = Resolved tt →
     (deleteBookmark isTauri i w).1 = Resolved tt
     ∧ bookmarks w' `sublist_of` bookmarks w
     ∧ (∀ b, b ∈ bookmarks w' ↔ b ∈ bookmarks w ∧ id b ≠ i)
     ∧ (NoDup (id <$> bookmarks w) → i ∈ id <$> bookmarks w →
        length (bookmarks w) = S (length (bookmarks w')))).
Proof.
  intros w' reply.
  subst w' reply. unfold deleteBookmark, bind, invoke, modify. destruct isTauri.
  - destruct (handle (delete_bookmark i) (backend w)) as [[[]|e] b']; cbn.
    + split_and!; [done..| |]; [by intros e _ [=]|]. intros _.
      split_and!; [done|apply sublist_filter| |apply remove_present].
      intros b. rewrite list_elem_of_filter. tauto.
    + split_and!; [done..| |]; [by intros e' _ [= <-]|]. by intros [[=]|[=]].
  - cbn. rewrite app_nil_r. split_and!; [done..| |]; [by intros e [=]|]. intros _.
    split_and!; [done|apply sublist_filter| |apply remove_present].
    intros b. rewrite list_elem_of_filter. tauto.
Qed.

(** X6.  [saveLimit] of the settings page takes the value of its input as
    it is, an integer of any size or sign, or [null] when the field is empty,
    which counts as 50: the call resolves whether [get_bookmarks] succeeds
    or not, asks for the first page with that limit, and leaves it as the
    limit of the feed, which is the limit [loadMoreBookmarks] then asks the
    next page with. *)
Theorem saveLimit_keeps_limit {B} {BE : Backend B} (isTauri : bool) (value : option Z)
    (w : World B) :
  let l := match value with Some l => l | None => 50%Z end in
  let w' := (saveLimit isTauri value w).2 in
  (saveLimit isTauri value w).1 = Resolved tt
  ∧ limit (feedMeta w') = l
  ∧ isLoading w' = false
  ∧ requests w' = (requests w ++ if isTauri then [get_bookmarks 0 l] else [])%list
  ∧ (hasMore (feedMeta w') = true →
     requests (loadMoreBookmarks isTauri w').2
     = (requests w'
        ++ if isTauri then [get_bookmarks (offset (feedMeta w')) l] else [])%list).
Proof.
  intros l w'.
  assert (load_limit {| opt_offset := None; opt_limit := value; opt_reset := true |}
            (feedMeta_reset (nullish value 50%Z) w) = l) as Hload
    by (by destruct value).
  destruct (loadBookmarks_reset isTauri
              {| opt_offset := None; opt_limit := value; opt_reset := true |}
              (feedMeta_reset (nullish value 50%Z) w) eq_refl) as [Hlim Hl].
  rewrite <- saveLimit_unfold in Hlim, Hl. fold w' in Hlim, Hl. rewrite Hload in Hlim.
  split_and!; [|done|done| |].
  - rewrite saveLimit_unfold. apply loadBookmarks_resolves.
  - subst w'. rewrite saveLimit_unfold, loadBookmarks_requests. by rewrite Hload.
  - intros Hmore. unfold loadMoreBookmarks, bind, get_world. cbn [fst snd].
    rewrite Hmore, Hl. cbn [negb orb]. rewrite loadBookmarks_requests.
    unfold load_offset, load_limit. cbn. by rewrite Hlim.
Qed.

Lemma search_call_requests {B} {BE : Backend B} isTauri c (w : World B) :
  requests (search_call isTauri c w).2
  = (requests w ++ if isTauri then [search_command c] else [])%list.
Proof.
  destruct isTauri.
  - rewrite search_call_tauri. unfold invoke. cbn [snd].
    by destruct (handle (search_command c) (backend w)) as [[r|e] b'].
  - destruct (search_call_mock c w) as (r & -> & _). cbn. by rewrite app_nil_r.
Qed.

Section TraceFacts.
Context {B : Type} {BE : Backend B}.
Variable isTauri : bool.

Lemma toggleFavorite_requests i (w : World B) :
  requests (toggleFavorite isTauri i w).2
  = (requests w ++ if isTauri then [toggle_favorite i] else [])%list.
Proof.
  unfold toggleFavorite, findIndex, bind, invoke, get_world. destruct isTauri.
  - destruct (handle (toggle_favorite i) (backend w)) as [[s|e] b']; [|done]. cbn.
    by destruct (list_find _ (bookmarks w)) as [[idx b]|].
  - cbn. rewrite app_nil_r. by destruct (list_find _ (bookmarks w)) as [[idx b]|].
Qed.

Lemma deleteBookmark_requests i (w : World B) :
  requests (deleteBookmark isTauri i w).2
  = (requests w ++ if isTauri then [delete_bookmark i] else [])%list.
Proof.
  unfold deleteBookmark, bind, invoke, modify. destruct isTauri.
  - by destruct (handle (delete_bookmark i) (backend w)) as [[[]|e] b'].
  - cbn. by rewrite app_nil_r.
Qed.

Lemma fetchLinkPreview_requests u (w : World B) :
  requests (fetchLinkPreview isTauri u w).2
  = (requests w
     ++ if isTauri && bool_decide (previewCache w !! u = None)
        then [fetch_link_preview u] else [])%list.
Proof.
  destruct (previewCache w !! u) as [q|] eqn:Hq.
  - rewrite (fetchLinkPreview_hit _ _ _ _ Hq). cbn. rewrite andb_false_r.
    by rewrite app_nil_r.
  - rewrite (fetchLinkPreview_miss _ _ _ Hq). cbn. rewrite andb_true_r.
    apply preview_task_requests.
Qed.

Lemma step_requests (w : World B) a :
  ∃ sent, requests (step isTauri w a) = (requests w ++ sent)%list
          ∧ (length sent ≤ if isTauri then 1 else 0)%nat.
Proof.
  assert (∀ c : Command, (length (if isTauri then [c] else []) ≤ if isTauri then 1 else 0)%nat)
    as Hone by (intros c; by destruct isTauri).
  destruct a as [options| |query tag| |filters|i|i|url0|l]; cbn [step].
  - eexists. split; [apply loadBookmarks_requests|apply Hone].
  - unfold loadMoreBookmarks, bind, get_world. cbn [fst snd].
    destruct (negb _ || _).
    + exists []. cbn. rewrite app_nil_r. split; [done|lia].
    + eexists. split; [apply loadBookmarks_requests|apply Hone].
  - eexists. split; [apply (search_call_requests isTauri (BySearch query tag))|apply Hone].
  - eexists. split; [apply (search_call_requests isTauri ByFavorites)|apply Hone].
  - eexists. split; [apply (search_call_requests isTauri (ByFilters filters))|apply Hone].
  - eexists. split; [apply toggleFavorite_requests|apply Hone].
  - eexists. split; [apply deleteBookmark_requests|apply Hone].
  - eexists. split; [apply fetchLinkPreview_requests|].
    destruct isTauri; cbn; [case_bool_decide; cbn; lia|lia].
  - rewrite saveLimit_unfold, loadBookmarks_requests. eexists.
    split; [reflexivity|apply Hone].
Qed.
End TraceFacts.

(** X7.  Each of the calls [loadBookmarks], [loadMoreBookmarks],
    [searchBookmarks], [searchWithFilters], [loadFavorites],
    [toggleFavorite], [deleteBookmark], [fetchLinkPreview] and the settings
    page's [saveLimit] sends at most one command and never repeats one that
    failed: over any sequence of these calls the trace of commands only
    grows at its end, by no more than one command per call.  ([importFile],
    which sends [import_file] and then reloads the feed and the statistics,
    [loadStats] and [openInBrowser] are not among them.) *)
Theorem one_command_per_call {B} {BE : Backend B} (isTauri : bool)
    (actions : list Action) (w : World B) :
  ∃ sent, requests (run isTauri actions w) = (requests w ++ sent)%list
          ∧ (length sent ≤ length actions)%nat.
Proof.
  revert w. induction actions as [|a actions IH]; intros w.
  - exists []. by rewrite app_nil_r.
  - rewrite run_cons. destruct (IH (step isTauri w a)) as (sent2 & -> & Hlen2).
    destruct (step_requests isTauri w a) as (sent1 & -> & Hlen1).
    exists (sent1 ++ sent2)%list. rewrite <- app_assoc. split; [done|].
    rewrite length_app. cbn [length]. destruct isTauri; lia.
Qed.

(** ** What a toggle leaves alone *)

Section ToggleFrame.
Context {B : Type} {BE : Backend B}.

(** What the assignment at the index found does to the list: the entry of
    index [k] is as before, or it is the first one of the id [i] and only
    its flag has changed. *)
Lemma alter_first i v (l : list Bookmark) k b :
  l !! k = Some b →
  match findIndex i l with
  | Some (idx, _) => alter (with_favorite v) idx l
  | None => l
  end !! k = Some b
  ∨ (id b = i
     ∧ (∀ j b', (j < k)%nat → l !! j = Some b' → id b' ≠ i)
     ∧ match findIndex i l with
       | Some (idx, _) => alter (with_favorite v) idx l
       | None => l
       end !! k = Some (with_favorite v b)).
Proof.
  intros Hk. unfold findIndex.
  destruct (list_find _ l) as [[idx b0]|] eqn:Hf; [|by left].
  apply list_find_Some in Hf as (Hidx & Hid & Hfirst).
  destruct (decide (k = idx)) as [->|Hne].
  - right. rewrite list_lookup_alter_eq, Hk. simplify_eq. split_and!; [done| |done].
    intros j b' Hj Hb'. by eapply Hfirst.
  - left. by rewrite list_lookup_alter_ne.
Qed.

Lemma findIndex_absent i (l : list Bookmark) : i ∉ id <$> l → findIndex i l = None.
Proof.
  intros Hi. unfold findIndex. destruct (list_find _ l) as [[idx b0]|] eqn:Hf; [|done].
  apply list_find_Some in Hf as (Hidx & Hid & _). exfalso. apply Hi.
  rewrite <- Hid. apply list_elem_of_fmap_2. by eapply list_elem_of_lookup_2.
Qed.
End ToggleFrame.

(** X8.  [toggleFavorite] changes at most one entry of the list, the first
    one of that id, and of it only [is_favorite], which becomes the state
    the call returns; the feed metadata is untouched.  For an id that is not
    in the list the list is as before, and without the backend the call
    returns [false].  With the backend the call settles as the command
    [toggle_favorite] does, in the list or not, and a failure of the command
    rejects the call and leaves the list as it was. *)
Theorem toggleFavorite_frame {B} {BE : Backend B} (isTauri : bool) (i : string)
    (w : World B) :
  let w' := (toggleFavorite isTauri i w).2 in
  let result := (toggleFavorite isTauri i w).1 in
  feedMeta w' = feedMeta w
  ∧ length (bookmarks w') = length (bookmarks w)
  ∧ requests w' = (requests w ++ if isTauri then [toggle_favorite i] else [])%list
  ∧ (∀ k b, bookmarks w !! k = Some b →
       bookmarks w' !! k = Some b
       ∨ (id b = i
          ∧ (∀ j b', (j < k)%nat → bookmarks w !! j = Some b' → id b' ≠ i)
          ∧ ∃ s, result = Resolved s ∧ bookmarks w' !! k = Some (with_favorite s b)))
  ∧ (i ∉ id <$> bookmarks w →
     bookmarks w' = bookmarks w ∧ (isTauri = false → result = Resolved false))
  ∧ (isTauri = true →
     result = (handle (toggle_favorite i) (backend w)).1
     ∧ ∀ e, result = Rejected e → bookmarks w' = bookmarks w).
Proof.
  intros w' result.
  destruct (toggleFavorite_feed isTauri i w) as (Hfeed & _ & Hlen).
  split_and!; [done|done|apply toggleFavorite_requests| | |]; subst w' result;
    unfold toggleFavorite, findIndex, bind, invoke, get_world; destruct isTauri.
  - intros k b Hk.
    destruct (handle (toggle_favorite i) (backend w)) as [[s|e] b']; [|by left].
    pose proof (alter_first i s (bookmarks w) k b Hk) as H. unfold findIndex in H. cbn.
    destruct (list_find _ (bookmarks w)) as [[idx b0]|]; cbn;
      destruct H as [H|(Hid & Hfirst & H)]; eauto 10.
  - intros k b Hk. cbn.
    destruct (list_find _ (bookmarks w)) as [[idx b0]|] eqn:Hf; cbn; [|by left].
    pose proof (alter_first i (negb (is_favorite b0)) (bookmarks w) k b Hk) as H.
    unfold findIndex in H. rewrite Hf in H. destruct H as [H|(Hid & Hfirst & H)]; eauto 10.
  - intros Hi. pose proof (findIndex_absent _ _ Hi) as Hf. unfold findIndex in Hf.
    destruct (handle (toggle_favorite i) (backend w)) as [[s|e] b']; cbn; [|done].
    by rewrite Hf.
  - intros Hi. pose proof (findIndex_absent _ _ Hi) as Hf. unfold findIndex in Hf.
    cbn. by rewrite Hf.
  - intros _. destruct (handle (toggle_favorite i) (backend w)) as [[s|e] b']; cbn.
    + by destruct (list_find _ (bookmarks w)) as [[idx b0]|].
    + done.
  - done.
Qed.

(** ** The local filters of the development mode *)

Lemma prefix_spec (p s : string) : String.prefix p s = true ↔ ∃ post, s = p ++ post.
Proof.
  revert s. induction p as [|a p IH]; intros s.
  - split; [intros _; by exists s|intros _; by destruct s].
  - destruct s as [|b s]; cbn [String.prefix].
    + split; [done|]. intros [post H]. by rewrite string_app_cons in H.
    + destruct (Ascii.ascii_dec a b) as [->|Hne].
      * rewrite IH. split; intros [post H]; exists post.
        -- by rewrite string_app_cons, H.
        -- rewrite string_app_cons in H. by injection H.
      * split; [done|]. intros [post H]. rewrite string_app_cons in H. congruence.
Qed.

Lemma includes_spec (sub s : string) :
  includes sub s = true ↔ ∃ pre post, s = pre ++ sub ++ post.
Proof.
  induction s as [|c s IH]; cbn [includes]; rewrite orb_true_iff, prefix_spec.
  - split.
    + intros [[post H]|?]; [|done]. by exists "", post.
    + intros (pre & post & H). left. destruct pre; [by exists post|].
      by rewrite string_app_cons in H.
  - rewrite IH. split.
    + intros [[post H]|(pre & post & H)]; [by exists "", post|].
      exists (String c pre), post. by rewrite string_app_cons, H.
    + intros (pre & post & H). destruct pre as [|a pre].
      * left. by exists post.
      * right. rewrite string_app_cons in H. injection H as -> H. by exists pre, post.
Qed.

Lemma toLowerCase_empty (s : string) : toLowerCase s = "" ↔ s = "".
Proof. by destruct s. Qed.

(** The lower-case form of an ASCII character is one. *)
Lemma lower_ascii_below c :
  (nat_of_ascii c <? 128)%nat = true → (nat_of_ascii (lower_ascii c) <? 128)%nat = true.
Proof. destruct c as [[] [] [] [] [] [] [] []]; vm_compute; done. Qed.

Lemma is_ascii_toLowerCase q : is_ascii q = true → is_ascii (toLowerCase q) = true.
Proof.
  induction q as [|c q IH]; [done|]. cbn [is_ascii toLowerCase].
  rewrite !andb_true_iff. intros [Hc Hq]. split; [by apply lower_ascii_below|by apply IH].
Qed.

(** A string of ASCII characters does not reach into a character that is
    not one. *)
Lemma prefix_ascii q a d rest :
  is_ascii q = true → (nat_of_ascii d <? 128)%nat = false →
  String.prefix q (a ++ String d rest) = String.prefix q a.
Proof.
  intros Hq Hd. revert q Hq. induction a as [|x a IH]; intros [|c q] Hq; try done.
  - change ("" ++ String d rest) with (String d rest). cbn [String.prefix].
    cbn [is_ascii] in Hq. apply andb_true_iff in Hq as [Hc _].
    destruct (ascii_dec c d) as [->|]; [congruence|done].
  - change (String x a ++ String d rest) with (String x (a ++ String d rest)).
    cbn [String.prefix]. cbn [is_ascii] in Hq.
    apply andb_true_iff in Hq as [_ Hq]. destruct (ascii_dec c x); [by apply IH|done].
Qed.

Lemma includes_skip q d rest :
  is_ascii q = true → q ≠ "" → (nat_of_ascii d <? 128)%nat = false →
  includes q (String d rest) = includes q rest.
Proof.
  intros Hq Hne Hd. cbn [includes]. destruct q as [|c q]; [done|].
  cbn [String.prefix]. cbn [is_ascii] in Hq. apply andb_true_iff in Hq as [Hc _].
  destruct (ascii_dec c d) as [->|]; [congruence|done].
Qed.

Lemma includes_around q a d rest :
  is_ascii q = true → q ≠ "" → (nat_of_ascii d <? 128)%nat = false →
  includes q (a ++ String d rest) = includes q a || includes q rest.
Proof.
  intros Hq Hne Hd. induction a as [|x a IH].
  - change ("" ++ String d rest) with (String d rest).
    rewrite includes_skip by done. by destruct q.
  - change (String x a ++ String d rest) with (String x (a ++ String d rest)).
    cbn [includes]. rewrite IH.
    change (String x (a ++ String d rest)) with (String x a ++ String d rest).
    rewrite prefix_ascii by done. by rewrite orb_assoc.
Qed.

(** The emoji of the first mock bookmark plays no part in a search for ASCII
    characters: such a query occurs in the content exactly when it occurs in
    the text before the emoji or in the text after it. *)
Lemma crab_apart (query : string) (b : Bookmark) :
  is_ascii query = true → query ≠ "" → mockBookmarks !! 0%nat = Some b →
  content b
  = "Rust 2024 edition is here! " ++ crab
    ++ " Check out the new features including improved async support and better error messages."
  ∧ (occurs_ignoring_case query (content b)
     ↔ occurs_ignoring_case query "Rust 2024 edition is here! "
       ∨ occurs_ignoring_case query
           " Check out the new features including improved async support and better error messages.").
Proof.
  intros Hq Hne [= <-]. split; [reflexivity|].
  unfold occurs_ignoring_case. rewrite <- !includes_spec.
  apply is_ascii_toLowerCase in Hq.
  assert (toLowerCase query ≠ "") as Hne' by (by destruct query).
  revert Hq Hne'. generalize (toLowerCase query). intros q Hq Hq'.
  rewrite <- orb_true_iff.
  set (x := toLowerCase (content _)). vm_compute in x. subst x.
  set (x := toLowerCase _). vm_compute in x. subst x.
  set (x := toLowerCase _). vm_compute in x. subst x.
  match goal with |- includes q ?s = true ↔ includes q ?a || includes q ?b = true =>
    let e := eval vm_compute in (crab ++ b) in change s with (a ++ e)
  end.
  rewrite includes_around by done.
  by do 3 (rewrite (includes_skip q (Ascii _ _ _ _ _ _ _ true)) by done).
Qed.

(** X9.  Without the backend [searchBookmarks] filters the mock bookmarks
    locally.  For a query of ASCII characters: a mock bookmark is shown
    exactly when the query, if it is not empty, occurs in its content,
    author handle or author name, letter case ignored, and the tag, if one
    is given and not empty, is one of its tags.  Two queries that differ in
    letter case only give the same result.  The emoji in the content of the
    first mock bookmark plays no part: the query occurs in that content
    exactly when it occurs in the text before the emoji or in the text
    after it. *)
Theorem searchBookmarks_mock_spec {B} {BE : Backend B} (query : string)
    (tag : option string) (w : World B) :
  is_ascii query = true →
  let w' := (searchBookmarks false query tag w).2 in
  (∀ b, b ∈ bookmarks w' ↔
        b ∈ mockBookmarks
        ∧ (query ≠ "" →
           occurs_ignoring_case query (content b)
           ∨ occurs_ignoring_case query (author_handle b)
           ∨ occurs_ignoring_case query (author_name b))
        ∧ (∀ t, tag = Some t → t ≠ "" → t ∈ tags b))
  ∧ (∀ query', toLowerCase query' = toLowerCase query →
       searchBookmarks false query' tag w = searchBookmarks false query tag w)
  ∧ (query ≠ "" → ∀ b, mockBookmarks !! 0%nat = Some b →
       occurs_ignoring_case query (content b)
       ↔ occurs_ignoring_case query "Rust 2024 edition is here! "
         ∨ occurs_ignoring_case query
             " Check out the new features including improved async support and better error messages.").
Proof.
  intros Hascii w'. split_and!.
  - intros b. subst w'.
    assert (∀ q, includes (toLowerCase q) (toLowerCase (content b))
                 || includes (toLowerCase q) (toLowerCase (author_handle b))
                 || includes (toLowerCase q) (toLowerCase (author_name b))
                 ↔ occurs_ignoring_case q (content b)
                   ∨ occurs_ignoring_case q (author_handle b)
                   ∨ occurs_ignoring_case q (author_name b)) as Hq.
    { intros q. unfold occurs_ignoring_case.
      rewrite !Is_true_true, !orb_true_iff, !includes_spec. tauto. }
    unfold searchBookmarks, truthy_opt, truthy.
    destruct tag as [t|]; cbn [mbind option_bind]; repeat case_decide;
      cbn -[filter mockBookmarks includes toLowerCase];
      rewrite ?list_elem_of_filter, ?Hq.
    all: intuition (simplify_eq; eauto).
  - intros query' Hq. unfold searchBookmarks, truthy.
    assert (query' = "" ↔ query = "") as He
      by (by rewrite <- (toLowerCase_empty query'), Hq, toLowerCase_empty).
    destruct (decide (query = "")) as [Hz|Hz].
    + rewrite decide_True by tauto. done.
    + rewrite decide_False by tauto. by rewrite Hq.
  - intros Hne b Hb. by apply crab_apart.
Qed.

(** X9 for the query [RUST]: the first mock bookmark is found, by its
    content and by its author. *)
Lemma searchBookmarks_mock_spec_witness :
  let core := core_backend sample_config in
  let w' := (searchBookmarks (BE := core) false "RUST" None (initial_world sample_storage)).2 in
  is_ascii "RUST" = true
  ∧ id <$> bookmarks w' = ["1"]
  ∧ ∀ b, b ∈ bookmarks w' ↔
         b ∈ mockBookmarks
         ∧ ("RUST" ≠ "" →
            occurs_ignoring_case "RUST" (content b)
            ∨ occurs_ignoring_case "RUST" (author_handle b)
            ∨ occurs_ignoring_case "RUST" (author_name b))
         ∧ (∀ t, None = Some t → t ≠ "" → t ∈ tags b).
Proof.
  intros core w'.
  assert (is_ascii "RUST" = true) as Hascii by reflexivity.
  split_and!; [exact Hascii|reflexivity|].
  exact (proj1 (searchBookmarks_mock_spec (BE := core) "RUST" None
                  (initial_world sample_storage) Hascii)).
Defined.

(** X10.  Without the backend [searchWithFilters] applies two of its seven
    filters to the mock bookmarks: the query, looked for in the content and
    the author handle (not in the author name), and [favoritesOnly]; this
    for a query of ASCII characters.  The tag, the author, the two dates and
    [hasMedia] play no part.  [loadFavorites] shows the mock bookmarks that
    are favorites. *)
Theorem searchWithFilters_mock_spec {B} {BE : Backend B} (filters : Filters)
    (w : World B) :
  from_option is_ascii true (f_query filters) = true →
  let w' := (searchWithFilters false filters w).2 in
  (∀ b, b ∈ bookmarks w' ↔
        b ∈ mockBookmarks
        ∧ (∀ q, f_query filters = Some q → q ≠ "" →
                occurs_ignoring_case q (content b)
                ∨ occurs_ignoring_case q (author_handle b))
        ∧ (f_favoritesOnly filters = Some true → is_favorite b = true))
  ∧ (∀ filters', f_query filters' = f_query filters →
                 f_favoritesOnly filters' = f_favoritesOnly filters →
                 searchWithFilters false filters' w = searchWithFilters false filters w)
  ∧ (∀ b, b ∈ bookmarks (loadFavorites false w).2 ↔
          b ∈ mockBookmarks ∧ is_favorite b = true).
Proof.
  intros _ w'. split_and!.
  - intros b. subst w'.
    assert (∀ q, includes (toLowerCase q) (toLowerCase (content b))
                 || includes (toLowerCase q) (toLowerCase (author_handle b))
                 ↔ occurs_ignoring_case q (content b)
                   ∨ occurs_ignoring_case q (author_handle b)) as Hq.
    { intros q. unfold occurs_ignoring_case.
      rewrite !Is_true_true, !orb_true_iff, !includes_spec. tauto. }
    unfold searchWithFilters, truthy_opt, truthy.
    destruct (f_query filters) as [q|]; cbn [mbind option_bind]; repeat case_decide;
      destruct (f_favoritesOnly filters) as [[|]|];
      cbn -[filter mockBookmarks includes toLowerCase];
      rewrite ?list_elem_of_filter, ?Hq; intuition (simplify_eq; eauto).
  - intros filters' Hq Hfav. unfold searchWithFilters. by rewrite Hq, Hfav.
  - intros b. unfold loadFavorites. cbn -[filter mockBookmarks].
    rewrite list_elem_of_filter. tauto.
Qed.

(** X10 for the query [enthusiast], which occurs in the author name of the
    second mock bookmark only: nothing is found. *)
Lemma searchWithFilters_mock_spec_witness :
  let core := core_backend sample_config in
  let filters := {| f_query := Some "enthusiast"; f_tag := None; f_author := None;
                    f_fromDate := None; f_toDate := None;
                    f_favoritesOnly := None; f_hasMedia := None |} in
  let w' := (searchWithFilters (BE := core) false filters (initial_world sample_storage)).2 in
  from_option is_ascii true (f_query filters) = true
  ∧ bookmarks w' = []
  ∧ id <$> bookmarks (searchBookmarks (BE := core) false "enthusiast" None
                        (initial_world sample_storage)).2 = ["2"]
  ∧ ∀ b, b ∈ bookmarks w' ↔
         b ∈ mockBookmarks
         ∧ (∀ q, f_query filters = Some q → q ≠ "" →
                 occurs_ignoring_case q (content b)
                 ∨ occurs_ignoring_case q (author_handle b))
         ∧ (f_favoritesOnly filters = Some true → is_favorite b = true).
Proof.
  intros core filters w'.
  assert (from_option is_ascii true (f_query filters) = true) as Hascii by reflexivity.
  split_and!; [exact Hascii|reflexivity|reflexivity|].
  exact (proj1 (searchWithFilters_mock_spec (BE := core) filters
                  (initial_world sample_storage) Hascii)).
Defined.

(** ** The page: page size, reactive search, layout, age labels *)

(** X11.  A search-style call that succeeds leaves 100 as the limit of the
    feed, whatever limit had been saved in the settings; the reload of the
    feed that follows a cleared search ([loadBookmarks] with [reset: true])
    then asks for the first page with limit 100, and 100 stays the limit of
    the feed. *)
Theorem search_overrides_page_size {B} {BE : Backend B} (c : SearchCall)
    (w : World B) (r : Reply (search_command c)) :
  (handle (search_command c) (backend w)).1 = Resolved r →
  let w1 := (search_call true c w).2 in
  let w2 := (loadBookmarks true reset_options w1).2 in
  limit (feedMeta w1) = 100%Z
  ∧ requests w2 = (requests w ++ [search_command c; get_bookmarks 0 100])%list
  ∧ limit (feedMeta w2) = 100%Z.
Proof.
  intros Hr w1 w2.
  assert (limit (feedMeta w1) = 100%Z ∧ requests w1 = (requests w ++ [search_command c])%list)
    as [Hlim Hreq].
  { subst w1. rewrite search_call_tauri, Hr. unfold invoke. cbn [snd].
    by destruct (handle (search_command c) (backend w)) as [o b']. }
  assert (load_limit reset_options w1 = 100%Z) as Hl by (unfold load_limit; by rewrite Hlim).
  split_and!; [done| |].
  - subst w2. rewrite loadBookmarks_requests, Hreq, Hl. by rewrite <- app_assoc.
  - subst w2. rewrite loadBookmarks_tauri. cbn zeta. rewrite Hl. cbn [snd].
    by destruct (handle (get_bookmarks _ _) _) as [[r'|e] b'].
Qed.

Lemma search_overrides_page_size_witness :
  let w := run (BE := core_backend sample_config) true [SaveLimit (Some 2%Z)]
             (initial_world sample_storage) in
  let c := BySearch "async" None in
  (∃ r, (handle (Backend := core_backend sample_config) (search_command c) (backend w)).1
        = Resolved r)
  ∧ limit (feedMeta w) = 2%Z
  ∧ limit (feedMeta (search_call (BE := core_backend sample_config) true c w).2) = 100%Z.
Proof.
  intros w c. split; [by eexists|]. split; [reflexivity|].
  eapply (search_overrides_page_size (BE := core_backend sample_config) c w).
  reflexivity.
Defined.

(** X12.  The reactive search of the page calls the API layer only when the
    query or the selected tag differs from the values of its last run: run
    again with both unchanged it does nothing.  When it does run it
    remembers the two values and makes one call, [searchBookmarks] when the
    query is not empty or a tag that is not empty is selected, and otherwise
    a reload of the feed from offset 0 with the limit of the feed. *)
Theorem reactive_search_once {B} {BE : Backend B} (isTauri : bool) (p : Page B) :
  let p' := reactive_search isTauri p in
  let unchanged := Some (searchQuery p) = lastQuery p ∧ selectedTag p = lastTag p in
  reactive_search isTauri p' = p'
  ∧ searchQuery p' = searchQuery p ∧ selectedTag p' = selectedTag p
  ∧ (unchanged → p' = p)
  ∧ (¬ unchanged →
     lastQuery p' = Some (searchQuery p) ∧ lastTag p' = selectedTag p
     ∧ requests (world p')
       = (requests (world p) ++ if isTauri then [reactive_command p] else [])%list).
Proof.
  intros p' unchanged. subst p'. unfold reactive_search.
  destruct (decide unchanged) as [Hu|Hu].
  - rewrite (bool_decide_eq_true_2 _ Hu). unfold reactive_search.
    rewrite (bool_decide_eq_true_2 _ Hu). done.
  - rewrite (bool_decide_eq_false_2 _ Hu). split_and!; [|done|done|done|].
    + unfold reactive_search. cbn [searchQuery selectedTag lastQuery lastTag].
      by rewrite bool_decide_eq_true_2.
    + intros _. split_and!; [done|done|]. cbn [world]. unfold reactive_command.
      destruct (query_or_tag _ _).
      * apply (search_call_requests isTauri (BySearch (searchQuery p) (selectedTag p))).
      * by rewrite loadBookmarks_requests.
Qed.

(** X13.  The layout store starts from a valid layout whatever the local
    storage holds (a missing or unknown value gives ['default']), and a
    layout that is set is the one the store starts from after a reload,
    where there is a [window]; with no [window] the choice does not outlive
    the store. *)
Theorem layout_survives_reload (win : option LocalStorage) (newLayout : string) :
  LayoutMode (layout (createLayoutStore win))
  ∧ (∀ localStorage stored,
       win = Some localStorage → localStorage !! "eterea:layout" = Some stored →
       ¬ LayoutMode stored → layout (createLayoutStore win) = "default")
  ∧ (LayoutMode newLayout →
     let s := layoutMode_set newLayout (createLayoutStore win) in
     layout s = newLayout
     ∧ layout (createLayoutStore (window s))
       = match win with Some _ => newLayout | None => "default" end).
Proof.
  unfold createLayoutStore, resolveInitialLayout, LayoutMode. cbn [layout window].
  split_and!.
  - destruct win as [ls|]; [|by left].
    destruct (ls !! "eterea:layout") as [stored|]; [|by left].
    case_bool_decide as H; [|by left]. tauto.
  - intros ls stored -> -> Hbad. rewrite bool_decide_eq_false_2; [done|]. tauto.
  - intros Hnew. cbv zeta. unfold layoutMode_set. cbn [layout window].
    split; [done|]. destruct win as [ls|]; [|done].
    cbn [fmap option_fmap option_map].
    rewrite lookup_insert_eq. rewrite bool_decide_eq_true_2; [done|]. tauto.
Qed.

(** X14.  The age label of a bookmark card, by the time elapsed since the
    tweet: under one day ['Today'], under two ['Yesterday'], then 2 to 6
    days, 1 to 4 weeks (from the 7th day), 1 to 12 months (from the 30th
    day), and the date itself from the 365th day on.  The unit is always in
    the plural (['1 weeks ago']), and a date in the future is shown as a
    negative number of days ago. *)
Theorem formatDate_buckets (diff : Z) (localeDate : string) :
  let label := formatDate diff localeDate in
  ((diff < 0)%Z → ∃ n, (n < 0)%Z ∧ label = pretty n ++ " days ago")
  ∧ ((0 ≤ diff < day_ms)%Z → label = "Today")
  ∧ ((day_ms ≤ diff < 2 * day_ms)%Z → label = "Yesterday")
  ∧ ((2 * day_ms ≤ diff < 7 * day_ms)%Z →
     ∃ n, (2 ≤ n ≤ 6)%Z ∧ label = pretty n ++ " days ago")
  ∧ ((7 * day_ms ≤ diff < 30 * day_ms)%Z →
     ∃ n, (1 ≤ n ≤ 4)%Z ∧ label = pretty n ++ " weeks ago")
  ∧ ((7 * day_ms ≤ diff < 14 * day_ms)%Z → label = "1 weeks ago")
  ∧ ((30 * day_ms ≤ diff < 365 * day_ms)%Z →
     ∃ n, (1 ≤ n ≤ 12)%Z ∧ label = pretty n ++ " months ago")
  ∧ ((30 * day_ms ≤ diff < 60 * day_ms)%Z → label = "1 months ago")
  ∧ ((365 * day_ms ≤ diff)%Z → label = localeDate).
Proof.
  intros label. subst label. unfold formatDate, day_ms.
  change (1000 * 60 * 60 * 24)%Z with 86400000%Z.
  set (days := (diff `div` 86400000)%Z).
  assert (86400000 * days ≤ diff < 86400000 * days + 86400000)%Z as Hd.
  { subst days. pose proof (Z.mul_div_le diff 86400000 eq_refl).
    pose proof (Z.mul_succ_div_gt diff 86400000 eq_refl). lia. }
  split_and!; intros H.
  - exists days. split; [lia|].
    destruct (Z.eqb_spec days 0); [lia|]. destruct (Z.eqb_spec days 1); [lia|].
    destruct (Z.ltb_spec days 7); [done|lia].
  - destruct (Z.eqb_spec days 0); [done|lia].
  - destruct (Z.eqb_spec days 0); [lia|]. destruct (Z.eqb_spec days 1); [done|lia].
  - exists days. split; [lia|].
    destruct (Z.eqb_spec days 0); [lia|]. destruct (Z.eqb_spec days 1); [lia|].
    destruct (Z.ltb_spec days 7); [done|lia].
  - exists (days `div` 7)%Z.
    assert (1 ≤ days `div` 7)%Z by (apply Z.div_le_lower_bound; lia).
    assert (days `div` 7 < 5)%Z by (apply Z.div_lt_upper_bound; lia).
    split; [lia|].
    destruct (Z.eqb_spec days 0); [lia|]. destruct (Z.eqb_spec days 1); [lia|].
    destruct (Z.ltb_spec days 7); [lia|]. destruct (Z.ltb_spec days 30); [done|lia].
  - assert (days `div` 7 = 1)%Z as Hw by (symmetry; apply (Z.div_unique days 7 1 (days - 7)); lia).
    destruct (Z.eqb_spec days 0); [lia|]. destruct (Z.eqb_spec days 1); [lia|].
    destruct (Z.ltb_spec days 7); [lia|]. destruct (Z.ltb_spec days 30); [|lia].
    by rewrite Hw.
  - exists (days `div` 30)%Z.
    assert (1 ≤ days `div` 30)%Z by (apply Z.div_le_lower_bound; lia).
    assert (days `div` 30 < 13)%Z by (apply Z.div_lt_upper_bound; lia).
    split; [lia|].
    destruct (Z.eqb_spec days 0); [lia|]. destruct (Z.eqb_spec days 1); [lia|].
    destruct (Z.ltb_spec days 7); [lia|]. destruct (Z.ltb_spec days 30); [lia|].
    destruct (Z.ltb_spec days 365); [done|lia].
  - assert (days `div` 30 = 1)%Z as Hw by (symmetry; apply (Z.div_unique days 30 1 (days - 30)); lia).
    destruct (Z.eqb_spec days 0); [lia|]. destruct (Z.eqb_spec days 1); [lia|].
    destruct (Z.ltb_spec days 7); [lia|]. destruct (Z.ltb_spec days 30); [lia|].
    destruct (Z.ltb_spec days 365); [|lia]. by rewrite Hw.
  - destruct (Z.eqb_spec days 0); [lia|]. destruct (Z.eqb_spec days 1); [lia|].
    destruct (Z.ltb_spec days 7); [lia|]. destruct (Z.ltb_spec days 30); [lia|].
    destruct (Z.ltb_spec days 365); [lia|done].
Qed.

(** ** More on link targets *)

Lemma strip_prefix_None (p s : string) : String.prefix p s = false → strip_prefix p s = None.
Proof.
  revert s. induction p as [|a p IH]; intros s; [by destruct s|].
  destruct s as [|b s]; [done|]. cbn [String.prefix strip_prefix].
  destruct (Ascii.ascii_dec a b) as [->|Hne].
  - rewrite decide_True by done. apply IH.
  - by rewrite decide_False.
Qed.

Lemma match_all_from_no_scheme n s : includes "http" s = false → match_all_from n s = [].
Proof.
  revert s. induction n as [|n IH]; intros s Hs; [done|].
  assert (String.prefix "http" s = false ∧ ∀ c s', s = String c s' → includes "http" s' = false)
    as [Hp Ht].
  { destruct s as [|c s']; cbn [includes] in Hs; apply orb_false_iff in Hs as [Hp Ht].
    - split; [done|]. by intros.
    - split; [done|]. by intros c0 s0 [= _ <-]. }
  cbn [match_all_from]. unfold match_url_at. rewrite (strip_prefix_None _ _ Hp).
  destruct s as [|c s']; [done|]. apply IH. by eapply Ht.
Qed.

(** X15.  A bookmark whose content has no [http] in it, in lower case as the
    pattern is case-sensitive, gives no link target: its card shows no link
    preview. *)
Theorem linkTargets_without_scheme (bookmark : Bookmark) :
  includes "http" (content bookmark) = false → linkTargets bookmark = [].
Proof.
  intros H. unfold linkTargets, match_all. by rewrite match_all_from_no_scheme.
Qed.

Lemma linkTargets_without_scheme_witness :
  let bookmark := sample_row "7" "https://x.com/a/status/7" "see HTTPS://EXAMPLE.COM"
                    "2024-05-01T14:30:00Z" false [] in
  includes "http" (content bookmark) = false ∧ linkTargets bookmark = [].
Proof.
  intros bookmark.
  assert (includes "http" (content bookmark) = false) as H by reflexivity.
  split; [exact H|]. exact (linkTargets_without_scheme bookmark H).
Defined.

(** ** Statistics, import and mounting the page *)

Section PageFacts.
Context {B : Type} {BE : Backend B} {SB : StatsBackend B}.
Variable isTauri : bool.

Lemma loadStats_resolves (f : Frontend B) : (loadStats isTauri f).1 = Resolved tt.
Proof.
  unfold loadStats. destruct isTauri; [|done].
  by destruct (get_stats (backend (api f))) as [[data|e] b'].
Qed.

(** [loadStats] leaves the feed alone. *)
Lemma loadStats_feed (f : Frontend B) :
  let w' := api (loadStats isTauri f).2 in
  bookmarks w' = bookmarks (api f) ∧ feedMeta w' = feedMeta (api f)
  ∧ isLoading w' = isLoading (api f) ∧ requests w' = requests (api f).
Proof.
  unfold loadStats. destruct isTauri; [|done].
  by destruct (get_stats (backend (api f))) as [[data|e] b'].
Qed.
End PageFacts.

(** X17.  [loadStats] never rejects: a failure of [get_stats] is logged and
    the two stores keep what they had.  So the stats page, once mounted,
    never shows its error panel, and no spinner either: it shows the figures
    or, when the command failed before any statistics were loaded, the
    invitation to import bookmarks. *)
Theorem stats_page_never_shows_error {B} {BE : Backend B} {SB : StatsBackend B}
    (isTauri : bool) (describe : Error → string) (f : Frontend B) :
  let start := {| error := None; loading := true |} in
  let pg := (stats_onMount isTauri describe start f).1 in
  let f' := (stats_onMount isTauri describe start f).2 in
  (loadStats isTauri f).1 = Resolved tt
  ∧ error pg = None ∧ loading pg = false
  ∧ stats_view pg f' = match stats f' with Some data => Figures data | None => NoStats end
  ∧ (isTauri = true → ∀ e, (get_stats (backend (api f))).1 = Rejected e →
       stats f' = stats f ∧ allTags f' = allTags f)
  ∧ (isTauri = true → ∀ data, (get_stats (backend (api f))).1 = Resolved data →
       stats f' = Some data ∧ allTags f' = top_tags data)
  ∧ (isTauri = false → stats f' = Some mockStats ∧ allTags f' = top_tags mockStats).
Proof.
  intros start pg f'. subst pg f'. unfold stats_onMount.
  pose proof (loadStats_resolves isTauri f) as Hr.
  destruct (loadStats isTauri f) as [o f1] eqn:Hl. cbn [fst] in Hr. subst o.
  cbn [fst snd]. split_and!; [done..| | |].
  - intros -> e He. unfold loadStats in Hl.
    destruct (get_stats (backend (api f))) as [[data|e'] b']; [done|].
    by injection Hl as <-.
  - intros -> data Hd. unfold loadStats in Hl.
    destruct (get_stats (backend (api f))) as [[data'|e'] b']; [|done].
    cbn in Hd. injection Hd as ->. by injection Hl as <-.
  - intros ->. unfold loadStats in Hl. by injection Hl as <-.
Qed.

(** X18.  [importFile] without the backend reports 42 imported bookmarks
    for any path and changes nothing.  With the backend, a failure of
    [import_file] rejects the call before anything is reloaded; after a
    success the call returns the count of the backend, having reloaded the
    first page of the feed with the limit of the feed.  The import dialog
    ends with [isImporting] off and a result that says which of the two
    happened. *)
Theorem importFile_spec {B} {BE : Backend B} {SB : StatsBackend B} (isTauri : bool)
    (error_message : Error → option string) (path : string) (f : Frontend B) :
  let result := (importFile isTauri path f).1 in
  let f' := (importFile isTauri path f).2 in
  let modal := (doImport isTauri error_message path f).1 in
  let reply := import_file_command path (backend (api f)) in
  isImporting modal = false
  ∧ (isTauri = false →
     result = Resolved 42%Z ∧ f' = f
     ∧ importResult modal = Some {| success := true; count := 42; result_error := None |})
  ∧ (isTauri = true → ∀ e, reply.1 = Rejected e →
     result = Rejected e
     ∧ bookmarks (api f') = bookmarks (api f) ∧ feedMeta (api f') = feedMeta (api f)
     ∧ requests (api f') = requests (api f) ∧ stats f' = stats f
     ∧ importResult modal
       = Some {| success := false; count := 0;
                 result_error := Some (default "Import failed" (error_message e)) |})
  ∧ (isTauri = true → ∀ n, reply.1 = Resolved n →
     result = Resolved n
     ∧ requests (api f')
       = (requests (api f) ++ [get_bookmarks 0 (limit (feedMeta (api f)))])%list
     ∧ isLoading (api f') = false
     ∧ offset (feedMeta (api f')) = Z.of_nat (length (bookmarks (api f')))
     ∧ importResult modal = Some {| success := true; count := n; result_error := None |}).
Proof.
  intros result f' modal reply. subst result f' modal reply.
  unfold doImport, importFile. destruct isTauri; [|done].
  destruct (import_file_command path (backend (api f))) as [[n|e] b'].
  - set (f0 := with_api (set_backend b' (api f)) f). unfold on_api.
    pose proof (loadBookmarks_resolves true reset_options (api f0)) as Hres.
    pose proof (loadBookmarks_requests true reset_options (api f0)) as Hreq.
    pose proof (loadBookmarks_reset true reset_options (api f0) eq_refl) as [_ Hload].
    pose proof (loadBookmarks_offset true reset_options (api f0) (or_introl eq_refl)) as Hoff.
    destruct (loadBookmarks true reset_options (api f0)) as [o1 w1].
    cbn [fst snd] in Hres, Hreq, Hload, Hoff. subst o1.
    pose proof (loadStats_resolves true (with_api w1 f0)) as Hres2.
    pose proof (loadStats_feed true (with_api w1 f0)) as (Hb & Hf & Hl & Hr).
    destruct (loadStats true (with_api w1 f0)) as [o2 f2].
    cbn [fst snd] in Hres2, Hb, Hf, Hl, Hr. subst o2. cbn [fst snd].
    split_and!; [done|done|by intros _ e [=]|]. intros _ n' [= <-].
    unfold offset_counts in Hoff. cbn [api with_api] in *.
    rewrite Hr, Hl, Hf, Hb, Hreq. done.
  - cbn [fst snd]. split_and!; [done|done| |by intros _ n [=]].
    intros _ e' [= <-]. done.
Qed.

(** X19.  Whenever the page is mounted while the query is empty and no tag
    (or the empty tag) is selected, the first page of the feed is asked for
    twice, with the limit the feed has at that moment: once by [onMount] and
    once by the first run of the reactive search, in whichever order the two
    run.  The stores are those of the module: the page can be mounted again
    after the limit has been changed. *)
Theorem page_mount_loads_twice {B} {BE : Backend B} {SB : StatsBackend B}
    (f : Frontend B) (query : string) (tag : option string) :
  query_or_tag query tag = false →
  let first_page := get_bookmarks 0 (limit (feedMeta (api f))) in
  let page w := {| world := w; searchQuery := query; selectedTag := tag;
                   lastQuery := None; lastTag := None |} in
  let mounted := (page_onMount true f).2 in
  let searched := reactive_search true (page (api f)) in
  requests (world (reactive_search true (page (api mounted))))
  = (requests (api f) ++ [first_page; first_page])%list
  ∧ requests (api (page_onMount true (with_api (world searched) f)).2)
    = (requests (api f) ++ [first_page; first_page])%list.
Proof.
  intros Hq first_page page mounted searched. subst first_page.
  assert (∀ g : Frontend B,
            requests (api (page_onMount true g).2)
            = (requests (api g) ++ [get_bookmarks 0 (limit (feedMeta (api g)))])%list
            ∧ limit (feedMeta (api (page_onMount true g).2)) = limit (feedMeta (api g)))
    as Hmount.
  { intros g. unfold page_onMount, on_api.
    pose proof (loadStats_resolves true g) as Hres.
    pose proof (loadStats_feed true g) as (_ & Hf & _ & Hr).
    destruct (loadStats true g) as [o f1]. cbn [fst snd] in *. subst o.
    pose proof (loadBookmarks_requests true reset_options (api f1)) as Hreq.
    pose proof (loadBookmarks_reset true reset_options (api f1) eq_refl) as [Hlim _].
    destruct (loadBookmarks true reset_options (api f1)) as [o1 w1].
    cbn [fst snd api with_api] in *. rewrite Hreq, Hlim, Hr. unfold load_limit.
    cbn. by rewrite Hf. }
  assert (∀ w : World B,
            requests (world (reactive_search true (page w)))
            = (requests w ++ [get_bookmarks 0 (limit (feedMeta w))])%list
            ∧ limit (feedMeta (world (reactive_search true (page w)))) = limit (feedMeta w))
    as Hsearch.
  { intros w. unfold reactive_search, page. cbn [world searchQuery selectedTag lastQuery lastTag].
    rewrite bool_decide_eq_false_2 by (by intros [? _]).
    cbn [world]. rewrite Hq. rewrite loadBookmarks_requests.
    destruct (loadBookmarks_reset true reset_options w eq_refl) as [-> _]. done. }
  split.
  - destruct (Hsearch (api mounted)) as [-> _]. subst mounted.
    destruct (Hmount f) as [-> ->]. by rewrite <- app_assoc.
  - destruct (Hmount (with_api (world searched) f)) as [-> _].
    cbn [api with_api]. subst searched. destruct (Hsearch (api f)) as [-> ->].
    by rewrite <- app_assoc.
Qed.

(** X19 when the page is mounted again after 200 has been saved as the
    limit. *)
Lemma page_mount_loads_twice_witness :
  let f := with_api (run (BE := core_backend sample_config) true [SaveLimit (Some 200%Z)]
                       (initial_world sample_storage))
             (initial_frontend sample_storage) in
  let page w := {| world := w; searchQuery := ""; selectedTag := None;
                   lastQuery := None; lastTag := None |} in
  query_or_tag "" None = false
  ∧ requests (world (reactive_search (BE := core_backend sample_config) true
                       (page (api (page_onMount (BE := core_backend sample_config)
                                     (SB := no_stats) true f).2))))
    = [get_bookmarks 0 200; get_bookmarks 0 200; get_bookmarks 0 200].
Proof.
  intros f page.
  assert (query_or_tag "" None = false) as Hq by reflexivity.
  split; [exact Hq|].
  exact (proj1 (page_mount_loads_twice (BE := core_backend sample_config) (SB := no_stats)
                  f "" None Hq)).
Defined.

(** ** The handlers of a bookmark card *)

(** X20.  The two handlers of a bookmark card that call the API layer.
    [handleToggleFavorite] ends with [isTogglingFavorite] off whether
    [toggleFavorite] succeeded or was rejected, and settles as it did.
    [handleDelete] does nothing but close the menu when the dialog is
    declined; when it is confirmed and [deleteBookmark] is rejected, the
    rejection is passed on with the menu and the list as they were;
    otherwise the menu is closed and no bookmark of that id is left in the
    list. *)
Theorem card_handlers {B} {BE : Backend B} (isTauri confirmed : bool)
    (bookmark : Bookmark) (c : Card) (w : World B) :
  let toggled := handleToggleFavorite isTauri bookmark c w in
  let deleted := handleDelete isTauri confirmed bookmark c w in
  isTogglingFavorite toggled.2.1 = false
  ∧ showMenu toggled.2.1 = showMenu c
  ∧ toggled.2.2 = (toggleFavorite isTauri (id bookmark) w).2
  ∧ (∀ e, toggled.1 = Rejected e ↔ (toggleFavorite isTauri (id bookmark) w).1 = Rejected e)
  ∧ (confirmed = false → deleted = (Resolved tt, (deleted.2.1, w)) ∧ showMenu deleted.2.1 = false)
  ∧ (confirmed = true →
     deleted.1 = (deleteBookmark isTauri (id bookmark) w).1
     ∧ ((∃ e, deleted.1 = Rejected e)
        ∧ deleted.2.1 = c ∧ bookmarks deleted.2.2 = bookmarks w
        ∨ deleted.1 = Resolved tt
          ∧ showMenu deleted.2.1 = false
          ∧ ∀ b, b ∈ bookmarks deleted.2.2 → id b ≠ id bookmark)).
Proof.
  intros toggled deleted. subst toggled deleted.
  unfold handleToggleFavorite, handleDelete. split_and!.
  - by destruct (toggleFavorite isTauri (id bookmark) w).
  - by destruct (toggleFavorite isTauri (id bookmark) w).
  - by destruct (toggleFavorite isTauri (id bookmark) w).
  - intros e. destruct (toggleFavorite isTauri (id bookmark) w) as [[s|e'] w']; cbn;
      split; congruence.
  - by intros ->.
  - intros ->. unfold deleteBookmark, bind, invoke, modify. destruct isTauri.
    + destruct (handle (delete_bookmark (id bookmark)) (backend w)) as [[[]|e] b']; cbn.
      * split; [done|]. right. split_and!; [done..|].
        intros b Hb. by apply list_elem_of_filter in Hb as [? _].
      * split; [done|]. left. split_and!; [by exists e|done..].
    + cbn. split; [done|]. right. split_and!; [done..|].
      intros b Hb. by apply list_elem_of_filter in Hb as [? _].
Qed.

(** ** Where the matches lie in the content *)

Lemma span_non_space_rest s m r : span_non_space s = (m, r) → at_word_end r = true.
Proof.
  revert m r. induction s as [|c s IH]; intros m r; cbn [span_non_space].
  - by intros [= _ <-].
  - destruct (is_white_space c) eqn:Hc.
    + intros [= _ <-]. done.
    + destruct (span_non_space s) as [m' r']. intros [= _ <-]. by eapply IH.
Qed.

Lemma match_tail_rest s m rest : match_tail s = Some (m, rest) → at_word_end rest = true.
Proof.
  unfold match_tail. destruct (strip_prefix "://" s) as [r|]; [|done].
  destruct (span_non_space r) as [m' rest'] eqn:Hs.
  apply span_non_space_rest in Hs. destruct m'; [done|]. by intros [= _ <-].
Qed.

Lemma match_url_at_rest s m rest : match_url_at s = Some (m, rest) → at_word_end rest = true.
Proof.
  unfold match_url_at. destruct (strip_prefix "http" s) as [r|]; [|done].
  destruct (strip_prefix "s" r ≫= match_tail) as [[m' rest']|] eqn:Hs.
  - intros [= _ <-]. apply bind_Some in Hs as (r' & _ & Ht). by eapply match_tail_rest.
  - destruct (match_tail r) as [[m' rest']|] eqn:Ht; [|done].
    intros [= _ <-]. by eapply match_tail_rest.
Qed.

Lemma weave_matches n s :
  (String.length s ≤ n)%nat →
  ∃ g gaps, length gaps = length (match_all s)
            ∧ weave (g :: gaps) (match_all s) = s
            ∧ Forall (λ g, at_word_end g = true) gaps.
Proof.
  revert s. induction n as [|n IH]; intros s Hlen.
  - destruct s; [|cbn in Hlen; lia]. exists "", []. done.
  - rewrite match_all_unfold. destruct (match_url_at s) as [[m rest]|] eqn:Hm.
    + pose proof (match_url_at_rest _ _ _ Hm) as Hrest.
      apply match_url_at_app in Hm as [-> Hshape].
      apply url_shaped_length in Hshape. rewrite string_app_length in Hlen.
      destruct (IH rest) as (g & gaps & Hl & Hw & Hall); [lia|].
      exists "", (g :: gaps). split_and!.
      * cbn. by rewrite Hl.
      * change (weave ("" :: g :: gaps) (m :: match_all rest))
          with ("" ++ m ++ weave (g :: gaps) (match_all rest)). by rewrite Hw.
      * constructor; [|done]. destruct g as [|c g]; [done|].
        destruct (match_all rest) as [|m' ms]; cbn [weave] in Hw; by rewrite <- Hw in Hrest.
    + destruct s as [|c s]; [by exists "", []|].
      destruct (IH s) as (g & gaps & Hl & Hw & Hall); [cbn in Hlen; lia|].
      exists (String c g), gaps. split_and!; [done| |done].
      destruct (match_all s) as [|m ms]; cbn [weave] in *; by rewrite <- Hw.
Qed.

(** X21.  The urls of a card are found from left to right and do not
    overlap: the content is a text, the first match, a text, the second
    match, and so on up to a last text; and each match runs up to the next
    white space or to the end of the content. *)
Theorem matches_left_to_right (bookmark : Bookmark) :
  ∃ gaps, length gaps = S (length (match_all (content bookmark)))
          ∧ weave gaps (match_all (content bookmark)) = content bookmark
          ∧ Forall (λ g, at_word_end g = true) (tail gaps).
Proof.
  destruct (weave_matches (String.length (content bookmark)) (content bookmark))
    as (g & gaps & Hl & Hw & Hall); [done|].
  exists (g :: gaps). split_and!; [by rewrite <- Hl|done|done].
Qed.

(** ** A page that arrives; previews and feed *)

(** X22.  When [get_bookmarks] succeeds, [loadBookmarks] shows the page: at
    offset 0 the items of the response replace the list, whatever it held,
    and the loading flag is cleared; at any other offset they are appended
    and the loading flag is left alone.  The offset of the feed becomes the
    offset asked for plus the number of items received, and the limit asked
    for, the total and [has_more] of the response are stored. *)
Theorem loadBookmarks_success {B} {BE : Backend B} (options : LoadOptions)
    (w : World B) (r : PaginatedResponse) (b' : B) :
  let lim := load_limit options w in
  let off := load_offset options w in
  handle (get_bookmarks off lim) (backend w) = (Resolved r, b') →
  let w' := (loadBookmarks true options w).2 in
  (loadBookmarks true options w).1 = Resolved tt
  ∧ requests w' = (requests w ++ [get_bookmarks off lim])%list
  ∧ backend w' = b'
  ∧ feedMeta w' = {| offset := off + Z.of_nat (length (items r)); limit := lim;
                     total := resp_total r; hasMore := has_more r |}
  ∧ (off = 0%Z → bookmarks w' = items r ∧ isLoading w' = false)
  ∧ (off ≠ 0%Z → bookmarks w' = (bookmarks w ++ items r)%list
                 ∧ isLoading w' = isLoading w)
  ∧ previewCache w' = previewCache w.
Proof.
  intros lim off Hh w'. subst w'. rewrite loadBookmarks_tauri. fold lim off.
  cbn zeta. rewrite Hh. cbn [fst snd bookmarks feedMeta isLoading requests backend].
  split_and!; [done..| | |done].
  - intros ->. done.
  - intros Hne. by destruct (Z.eqb_spec off 0).
Qed.

Lemma loadBookmarks_success_witness :
  let w := initial_world sample_storage in
  let options := {| opt_offset := None; opt_limit := Some 2%Z; opt_reset := false |} in
  (∃ r b', handle (Backend := core_backend sample_config)
             (get_bookmarks (load_offset options w) (load_limit options w)) (backend w)
           = (Resolved r, b'))
  ∧ (loadBookmarks (BE := core_backend sample_config) true options w).1 = Resolved tt.
Proof.
  intros w options. split; [by eexists _, _|].
  eapply (loadBookmarks_success (BE := core_backend sample_config) options w).
  reflexivity.
Defined.

(** X23.  The link previews and the feed do not touch each other:
    [fetchLinkPreview] leaves the list, the feed metadata and the loading
    flag as they are, and every other call of the API layer leaves the
    preview cache as it is. *)
Theorem previews_apart_from_feed {B} {BE : Backend B} (isTauri : bool)
    (a : Action) (w : World B) :
  let w' := step isTauri w a in
  match a with
  | FetchLinkPreview u =>
      bookmarks w' = bookmarks w ∧ feedMeta w' = feedMeta w ∧ isLoading w' = isLoading w
      ∧ ∀ u', u' ≠ u → previewCache w' !! u' = previewCache w !! u'
  | _ => previewCache w' = previewCache w
  end.
Proof.
  intros w'. subst w'.
  destruct a as [options| |query tag| |filters|i|i|url0|l]; cbn [step];
    try (match goal with
         | |- previewCache (?m w).2 = _ =>
             let K := fresh in
             assert (keeps_previews m) as K by api_keeps; by destruct (K w) as [-> _]
         end).
  destruct (fetchLinkPreview_frame isTauri url0 w) as (Hb & Hf & Hl).
  split_and!; [done..|]. intros u' Hne.
  destruct (previewCache w !! url0) as [q|] eqn:Hq.
  - by rewrite (fetchLinkPreview_hit _ _ _ _ Hq).
  - rewrite (fetchLinkPreview_miss _ _ _ Hq). cbn. by rewrite lookup_insert_ne.
Qed.

(** ** A call in progress *)

Section InProgressFacts.
Context {B : Type} {BE : Backend B}.
Variable isTauri : bool.

(** The two halves make the call, when nothing runs in between. *)
Lemma loadBookmarks_split options (w : World B) :
  loadBookmarks isTauri options w
  = loadBookmarks_end (loadBookmarks_begin isTauri options w).1
      (loadBookmarks_begin isTauri options w).2.
Proof.
  unfold loadBookmarks, loadBookmarks_begin, loadBookmarks_end, load_limit, load_offset.
  unfold bind, get_world, finally, try_catch, invoke, when, modify, ret.
  destruct options as [oo ol [|]]; cbn [opt_reset opt_limit opt_offset].
  - destruct isTauri; cbn; [|done].
    match goal with |- context [handle ?c ?b] => by destruct (handle c b) as [[r|e] b'] end.
  - destruct (nullish oo _ =? 0)%Z eqn:Hz; destruct isTauri; cbn in *; rewrite ?Hz; try done.
    all: match goal with
         | |- context [handle ?c ?b] => destruct (handle c b) as [[r|e] b']
         end; cbn; rewrite ?Hz; done.
Qed.

Lemma loadMoreBookmarks_split (w : World B) :
  loadMoreBookmarks isTauri w
  = match loadMoreBookmarks_begin isTauri w with
    | (Some p, w1) => loadBookmarks_end p w1
    | (None, w1) => (Resolved tt, w1)
    end.
Proof.
  unfold loadMoreBookmarks, loadMoreBookmarks_begin, bind, get_world. cbn [fst snd].
  destruct (negb _ || _); [done|]. rewrite loadBookmarks_split.
  by destruct (loadBookmarks_begin _ _ _).
Qed.



(** What has been sent when a search-style call is suspended is what the
    whole call sends. *)
Lemma search_call_begin_sent c (w : World B) :
  requests (search_call_begin isTauri c w) = requests (search_call isTauri c w).2
  ∧ backend (search_call_begin isTauri c w) = backend (search_call isTauri c w).2.
Proof.
  unfold search_call_begin. destruct isTauri.
  - rewrite search_call_tauri. unfold invoke. cbn.
    by destruct (handle (search_command c) (backend w)) as [[r|e] b'].
  - by destruct (search_call_mock c w) as (r & -> & _).
Qed.

End InProgressFacts.



